(** * Type-level utilities of [generics.ts]

    [generics.ts] holds no run-time code: every declaration is a type alias
    that the TypeScript checker evaluates.  The development below embeds

    - the fragment of the type language the aliases are written in
      ([ty]: [any], primitives, literal types, object types with named
      members and an optional string index signature, arrays, tuples, unions
      and intersections);
    - the values an expression can denote ([value]);
    - the three judgements of the checker the aliases rely on: conformance of
      a value to a type ([has_type]), the excess-property check applied to a
      fresh object literal ([no_excess]) and assignability between types
      ([assignable], the relation behind every [extends]);
    - the library aliases of [lib.es5.d.ts] the file builds on ([Partial],
      [Pick], [Exclude], [Omit]) together with [keyof] and indexed access;
    - and then, alias by alias, the declarations of [generics.ts] itself.

    Checker settings: [strictNullChecks] on, [exactOptionalPropertyTypes]
    off (an optional member may hold [undefined]).  The [readonly] modifier
    of members, numeric index signatures and call signatures play no part in
    [generics.ts] and are left out.  The weak-type check (a source that
    shares no member with an all-optional target) is part of [assignable]
    but not of [has_type]: on a fresh object literal the excess-property
    check already refuses such a source, and the statements about accepted
    values below are about object literals. *)

From Stdlib Require Import List String ZArith Bool.
Import ListNotations.
Local Open Scope string_scope.
Local Open Scope list_scope.

(* ================================================================= *)
(** ** Member names *)

(** A member is named by a string or by a [unique symbol]. *)
Inductive key : Type :=
| KStr (s : string)
| KSym (id : string).

Definition key_eqb (a b : key) : bool :=
  match a, b with
  | KStr x, KStr y => String.eqb x y
  | KSym x, KSym y => String.eqb x y
  | _, _ => false
  end.

Definition is_string_key (k : key) : bool :=
  match k with KStr _ => true | KSym _ => false end.

Definition mem_key (k : key) (ks : list key) : bool := existsb (key_eqb k) ks.

(* ================================================================= *)
(** ** Types *)

Record member_of (A : Type) : Type := Member {
  m_name : key;
  m_optional : bool;          (* declared with [?] *)
  m_type : A
}.

Arguments Member {A} _ _ _.
Arguments m_name {A} _.
Arguments m_optional {A} _.
Arguments m_type {A} _.

Unset Elimination Schemes.

Inductive ty : Type :=
| TUnknown
| TNever
| TString
| TNumber
| TBoolean
| TNull
| TUndefined
| TStrLit (s : string)                         (* "foo" *)
| TNumLit (n : Z)                              (* 123 *)
| TBoolLit (b : bool)                          (* true, false *)
| TUniqueSym (id : string)                     (* typeof a unique symbol *)
| TObject (ms : list (member_of ty)) (idx : option ty)
                                               (* { a: A; b?: B; [key: string]: I } *)
| TArray (ro : bool) (elem : ty)               (* E[], readonly E[] *)
| TTuple (ro : bool) (elems : list ty)         (* [A, B], readonly [A, B] *)
| TUnion (a b : ty)                            (* A | B *)
| TInter (a b : ty)                            (* A & B *)
| TAny.                                        (* any *)

Set Elimination Schemes.

Definition member : Type := member_of ty.

(** A closed object shape: named members, no index signature. *)
Definition shape : Type := list member.

Definition TShape (T : shape) : ty := TObject T None.

Definition names (T : shape) : list key := map m_name T.

Fixpoint lookup_member (k : key) (T : shape) : option member :=
  match T with
  | [] => None
  | m :: rest => if key_eqb (m_name m) k then Some m else lookup_member k rest
  end.

Fixpoint unique_keys (ks : list key) : bool :=
  match ks with
  | [] => true
  | k :: rest => negb (mem_key k rest) && unique_keys rest
  end.

(** A shape declares each member name once. *)
Definition unique_names (T : shape) : bool := unique_keys (names T).

Definition all_required (T : shape) : bool :=
  forallb (fun m => negb (m_optional m)) T.

Section TyInduction.
Variable P : ty -> Prop.
Hypothesis HUnknown : P TUnknown.
Hypothesis HNever : P TNever.
Hypothesis HString : P TString.
Hypothesis HNumber : P TNumber.
Hypothesis HBoolean : P TBoolean.
Hypothesis HNull : P TNull.
Hypothesis HUndefined : P TUndefined.
Hypothesis HStrLit : forall s, P (TStrLit s).
Hypothesis HNumLit : forall n, P (TNumLit n).
Hypothesis HBoolLit : forall b, P (TBoolLit b).
Hypothesis HUniqueSym : forall id, P (TUniqueSym id).
Hypothesis HObject : forall ms idx,
    Forall (fun m => P (m_type m)) ms ->
    match idx with Some it => P it | None => True end ->
    P (TObject ms idx).
Hypothesis HArray : forall ro e, P e -> P (TArray ro e).
Hypothesis HTuple : forall ro es, Forall P es -> P (TTuple ro es).
Hypothesis HUnion : forall a b, P a -> P b -> P (TUnion a b).
Hypothesis HInter : forall a b, P a -> P b -> P (TInter a b).
Hypothesis HAny : P TAny.

Fixpoint ty_nested_ind (t : ty) : P t :=
  match t as t0 return P t0 with
  | TUnknown => HUnknown
  | TNever => HNever
  | TString => HString
  | TNumber => HNumber
  | TBoolean => HBoolean
  | TNull => HNull
  | TUndefined => HUndefined
  | TStrLit s => HStrLit s
  | TNumLit n => HNumLit n
  | TBoolLit b => HBoolLit b
  | TUniqueSym id => HUniqueSym id
  | TObject ms idx =>
      HObject ms idx
        ((fix members_ind (l : list member) : Forall (fun m => P (m_type m)) l :=
            match l with
            | [] => Forall_nil _
            | m :: rest => Forall_cons _ (ty_nested_ind (m_type m)) (members_ind rest)
            end) ms)
        (match idx as o return match o with Some it => P it | None => True end with
         | Some it => ty_nested_ind it
         | None => I
         end)
  | TArray ro e => HArray ro e (ty_nested_ind e)
  | TTuple ro es =>
      HTuple ro es
        ((fix elems_ind (l : list ty) : Forall P l :=
            match l with
            | [] => Forall_nil _
            | e :: rest => Forall_cons _ (ty_nested_ind e) (elems_ind rest)
            end) es)
  | TUnion a b => HUnion a b (ty_nested_ind a) (ty_nested_ind b)
  | TInter a b => HInter a b (ty_nested_ind a) (ty_nested_ind b)
  | TAny => HAny
  end.
End TyInduction.

(** Syntactic identity of types. *)
Fixpoint ty_eqb (x y : ty) {struct x} : bool :=
  match x, y with
  | TUnknown, TUnknown | TNever, TNever | TString, TString
  | TNumber, TNumber | TBoolean, TBoolean | TNull, TNull
  | TUndefined, TUndefined | TAny, TAny => true
  | TStrLit s, TStrLit s' => String.eqb s s'
  | TNumLit n, TNumLit n' => Z.eqb n n'
  | TBoolLit b, TBoolLit b' => Bool.eqb b b'
  | TUniqueSym i, TUniqueSym i' => String.eqb i i'
  | TObject ms idx, TObject ms' idx' =>
      (fix members_eqb (l l' : list (member_of ty)) {struct l} : bool :=
         match l, l' with
         | [], [] => true
         | m :: r, m' :: r' =>
             key_eqb (m_name m) (m_name m')
             && Bool.eqb (m_optional m) (m_optional m')
             && ty_eqb (m_type m) (m_type m')
             && members_eqb r r'
         | _, _ => false
         end) ms ms'
      && match idx, idx' with
         | Some i, Some i' => ty_eqb i i'
         | None, None => true
         | _, _ => false
         end
  | TArray ro e, TArray ro' e' => Bool.eqb ro ro' && ty_eqb e e'
  | TTuple ro es, TTuple ro' es' =>
      Bool.eqb ro ro'
      && (fix elems_eqb (l l' : list ty) {struct l} : bool :=
            match l, l' with
            | [], [] => true
            | e :: r, e' :: r' => ty_eqb e e' && elems_eqb r r'
            | _, _ => false
            end) es es'
  | TUnion a b, TUnion a' b' => ty_eqb a a' && ty_eqb b b'
  | TInter a b, TInter a' b' => ty_eqb a a' && ty_eqb b b'
  | _, _ => false
  end.

(** *** Unions

    The checker never keeps [never] as a member of a union. *)
Definition mk_union (a b : ty) : ty :=
  match a, b with
  | TNever, _ => b
  | _, TNever => a
  | _, _ => TUnion a b
  end.

Definition union_of (ts : list ty) : ty := fold_right mk_union TNever ts.

(** The members of a type seen as a union: [never] is the empty union and an
    intersection distributes over the unions below it.  A distributive
    conditional type is evaluated once per constituent. *)
Fixpoint constituents (t : ty) : list ty :=
  match t with
  | TNever => []
  | TUnion a b => constituents a ++ constituents b
  | TInter a b =>
      flat_map (fun x => map (TInter x) (constituents b)) (constituents a)
  | _ => [t]
  end.

Definition distribute (f : ty -> ty) (t : ty) : ty :=
  union_of (map f (constituents t)).

(** *** Key types *)

Definition key_type (k : key) : ty :=
  match k with
  | KStr s => TStrLit s
  | KSym id => TUniqueSym id
  end.

(** The union ["k1" | ... | "kn"] of a finite set of member names. *)
Definition key_union (ks : list key) : ty := union_of (map key_type ks).

(** The member names a key type [K] ranges over. *)
Definition literal_keys (K : ty) : list key :=
  flat_map (fun t => match t with
                     | TStrLit s => [KStr s]
                     | TUniqueSym id => [KSym id]
                     | _ => []
                     end) (constituents K).

(* ================================================================= *)
(** ** Values *)

Unset Elimination Schemes.

Inductive value : Type :=
| VUndefined
| VNull
| VBool (b : bool)
| VNum (n : Z)
| VStr (s : string)
| VSym (id : string)
| VObj (fields : list (key * value))           (* { k1: v1, ..., kn: vn } *)
| VArr (items : list value).                   (* [v1, ..., vn] *)

Set Elimination Schemes.

Section ValueInduction.
Variable P : value -> Prop.
Hypothesis HUndefined : P VUndefined.
Hypothesis HNull : P VNull.
Hypothesis HBool : forall b, P (VBool b).
Hypothesis HNum : forall n, P (VNum n).
Hypothesis HStr : forall s, P (VStr s).
Hypothesis HSym : forall id, P (VSym id).
Hypothesis HObj : forall fs, Forall (fun f => P (snd f)) fs -> P (VObj fs).
Hypothesis HArr : forall xs, Forall P xs -> P (VArr xs).

Fixpoint value_nested_ind (v : value) : P v :=
  match v as v0 return P v0 with
  | VUndefined => HUndefined
  | VNull => HNull
  | VBool b => HBool b
  | VNum n => HNum n
  | VStr s => HStr s
  | VSym id => HSym id
  | VObj fs =>
      HObj fs
        ((fix fields_ind (l : list (key * value)) : Forall (fun f => P (snd f)) l :=
            match l with
            | [] => Forall_nil _
            | f :: rest => Forall_cons _ (value_nested_ind (snd f)) (fields_ind rest)
            end) fs)
  | VArr xs =>
      HArr xs
        ((fix items_ind (l : list value) : Forall P l :=
            match l with
            | [] => Forall_nil _
            | x :: rest => Forall_cons _ (value_nested_ind x) (items_ind rest)
            end) xs)
  end.
End ValueInduction.

Fixpoint lookup_field (k : key) (fs : list (key * value)) : option value :=
  match fs with
  | [] => None
  | f :: rest => if key_eqb (fst f) k then Some (snd f) else lookup_field k rest
  end.

(** Reading member [k] of a value.  Only the own members of an object are
    modelled: the members a primitive or an array inherits from its wrapper
    interface ([String], [Number], [Array], ...) all have string names and
    none of the shapes below mentions one. *)
Definition get_member (v : value) (k : key) : option value :=
  match v with
  | VObj fs => lookup_field k fs
  | _ => None
  end.

Definition is_undefined (v : value) : bool :=
  match v with VUndefined => true | _ => false end.

Definition is_nullish (v : value) : bool :=
  match v with VUndefined | VNull => true | _ => false end.

(* ================================================================= *)
(** ** Conformance of a value to a type *)

Fixpoint has_type (t : ty) (v : value) {struct t} : bool :=
  match t with
  | TUnknown => true
  | TNever => false
  | TString => match v with VStr _ => true | _ => false end
  | TNumber => match v with VNum _ => true | _ => false end
  | TBoolean => match v with VBool _ => true | _ => false end
  | TNull => match v with VNull => true | _ => false end
  | TUndefined => match v with VUndefined => true | _ => false end
  | TStrLit s => match v with VStr s' => String.eqb s s' | _ => false end
  | TNumLit n => match v with VNum n' => Z.eqb n n' | _ => false end
  | TBoolLit b => match v with VBool b' => Bool.eqb b b' | _ => false end
  | TUniqueSym id => match v with VSym id' => String.eqb id id' | _ => false end
  | TObject ms idx =>
      negb (is_nullish v)
      && forallb (fun m =>
                    match get_member v (m_name m) with
                    | None => m_optional m
                    | Some x =>
                        has_type (m_type m) x || (m_optional m && is_undefined x)
                    end) ms
      && match idx with
         | None => true
         | Some it =>
             match v with
             | VObj fs =>
                 forallb (fun f => negb (is_string_key (fst f)) || has_type it (snd f)) fs
             | _ => false
             end
         end
  | TArray _ e =>
      match v with VArr xs => forallb (has_type e) xs | _ => false end
  | TTuple _ es =>
      match v with
      | VArr xs =>
          (fix pointwise (l : list ty) (xs : list value) {struct l} : bool :=
             match l, xs with
             | [], [] => true
             | e :: r, x :: xs' => has_type e x && pointwise r xs'
             | _, _ => false
             end) es xs
      | _ => false
      end
  | TUnion a b => has_type a v || has_type b v
  | TInter a b => has_type a v && has_type b v
  | TAny => true
  end.

(** What a string index signature asks of a value: only an object literal
    gets an implicit index signature. *)
Definition index_ok (idx : option ty) (v : value) : bool :=
  match idx with
  | None => true
  | Some it =>
      match v with
      | VObj fs =>
          forallb (fun f => negb (is_string_key (fst f)) || has_type it (snd f)) fs
      | _ => false
      end
  end.

(** What one declared member asks of a value. *)
Definition member_ok (v : value) (m : member) : bool :=
  match get_member v (m_name m) with
  | None => m_optional m
  | Some x => has_type (m_type m) x || (m_optional m && is_undefined x)
  end.

(* ================================================================= *)
(** ** The excess-property check of a fresh object literal *)

Definition merge (f : ty -> ty -> ty) (x y : option ty) : option ty :=
  match x, y with
  | Some a, Some b => Some (f a b)
  | Some a, None => Some a
  | None, Some b => Some b
  | None, None => None
  end.

(** The type a target declares for member [k], if any. *)
Fixpoint declared_prop (t : ty) (k : key) : option ty :=
  match t with
  | TObject ms _ => option_map m_type (lookup_member k ms)
  | TUnion a b => merge TUnion (declared_prop a k) (declared_prop b k)
  | TInter a b => merge TInter (declared_prop a k) (declared_prop b k)
  | _ => None
  end.

(** The type an index signature of the target gives to member [k].  A
    string index signature types the members with a string name; the
    excess-property check also lets a symbol-named member through it,
    without constraining its value. *)
Fixpoint index_prop (t : ty) (k : key) : option ty :=
  match t with
  | TObject _ (Some it) => Some (if is_string_key k then it else TUnknown)
  | TUnion a b => merge TUnion (index_prop a k) (index_prop b k)
  | TInter a b => merge TInter (index_prop a k) (index_prop b k)
  | _ => None
  end.

Definition known_prop (t : ty) (k : key) : option ty :=
  match declared_prop t k with
  | Some x => Some x
  | None => index_prop t k
  end.

(** The type a target gives to element [i] of an array literal. *)
Fixpoint item_type (t : ty) (i : nat) : option ty :=
  match t with
  | TArray _ e => Some e
  | TTuple _ es => nth_error es i
  | TUnion a b => merge TUnion (item_type a i) (item_type b i)
  | TInter a b => merge TInter (item_type a i) (item_type b i)
  | _ => None
  end.

Fixpoint excess_target (t : ty) : bool :=
  match t with
  | TObject _ _ => true
  | TUnion a b | TInter a b => excess_target a || excess_target b
  | _ => false
  end.

(** The empty object type [{}] takes any member. *)
Fixpoint is_empty_object (t : ty) : bool :=
  match t with
  | TObject [] None => true
  | TUnion a b => is_empty_object a || is_empty_object b
  | TInter a b => is_empty_object a && is_empty_object b
  | _ => false
  end.

Section Indexed.
Variable A : Type.
Variable f : nat -> A -> bool.

(** [forallb] with the position of each element, counted from [i]. *)
Fixpoint forallbi (i : nat) (l : list A) : bool :=
  match l with
  | [] => true
  | x :: r => f i x && forallbi (S i) r
  end.
End Indexed.

Arguments forallbi {A} f i l.

(** Every member written in a fresh object literal must be known to the
    target; the check goes on into nested literals. *)
Fixpoint no_excess (t : ty) (v : value) {struct v} : bool :=
  match v with
  | VObj fs =>
      negb (excess_target t) || is_empty_object t
      || forallb (fun f =>
                    match known_prop t (fst f) with
                    | Some t' => no_excess t' (snd f)
                    | None => false
                    end) fs
  | VArr xs =>
      forallbi (fun i x =>
                  match item_type t i with
                  | Some t' => no_excess t' x
                  | None => true
                  end) 0 xs
  | _ => true
  end.

(** [const x: t = v] type-checks, for [v] a literal expression. *)
Definition accepts (t : ty) (v : value) : bool := has_type t v && no_excess t v.

(* ================================================================= *)
(** ** Assignability between types

    [assignable s t]: an expression of static type [s] may be used where
    [t] is required; this is the relation [s extends t] tests.  Identical
    types are related; [never] is assignable to everything, everything to
    [unknown] and to [any], and [any] to everything but [never]; a union
    source is taken member by member, an intersection target member by
    member, a union target through one of its members, an intersection
    source through one of its members; what remains is compared
    structurally.

    Limits of the relation, none of which the aliases of [generics.ts]
    exercise: as in [get_member], the members a primitive or an array
    inherits from its wrapper interface are not modelled; an intersection
    source is not compared through the members of the whole intersection;
    [boolean] is not split into [true | false]. *)

(** A weak type: an object type with members, all of them optional, and no
    index signature.  It refuses a source that has members but shares none
    with it. *)
Definition weak_type (tms : list member) (tidx : option ty) : bool :=
  match tms, tidx with
  | _ :: _, None => forallb (fun m => m_optional m) tms
  | _, _ => false
  end.

Definition shares_member (sms tms : list member) : bool :=
  match sms with
  | [] => true
  | _ :: _ => existsb (fun tm => mem_key (m_name tm) (names sms)) tms
  end.

(** A source without members of its own against a target that is neither a
    union nor an intersection.  Against an object type only the empty one
    takes it: a required member would be missing, and a weak type refuses
    it. *)
Definition memberless_assignable (s t : ty) : bool :=
  match t with
  | TNever => false
  | TString => match s with TStrLit _ | TAny => true | _ => false end
  | TNumber => match s with TNumLit _ | TAny => true | _ => false end
  | TBoolean => match s with TBoolLit _ | TAny => true | _ => false end
  | TObject tms tidx =>
      match s with
      | TUnknown | TNull | TUndefined => false
      | TAny => true
      | _ => match tms, tidx with [], None => true | _, _ => false end
      end
  | _ => match s with TAny => true | _ => false end
  end.

Fixpoint assignable (s : ty) {struct s} : ty -> bool :=
  fix towards (t : ty) {struct t} : bool :=
    if ty_eqb s t then true else
    match s with
    | TNever => true
    | TUnion a b => assignable a t && assignable b t
    | TInter a b =>
        match t with
        | TUnknown | TAny => true
        | TInter x y => towards x && towards y
        | TUnion x y => towards x || towards y
        | _ => assignable a t || assignable b t
        end
    | TObject sms sidx =>
        match t with
        | TUnknown | TAny => true
        | TInter x y => towards x && towards y
        | TUnion x y => towards x || towards y
        | TObject tms tidx =>
            (negb (weak_type tms tidx) || shares_member sms tms)
            && forallb (fun tm =>
              (fix find (l : list (member_of ty)) {struct l} : bool :=
                 match l with
                 | [] => m_optional tm
                 | sm :: r =>
                     if key_eqb (m_name sm) (m_name tm)
                     then implb (m_optional sm) (m_optional tm)
                          && assignable (m_type sm) (m_type tm)
                     else find r
                 end) sms) tms
            && match tidx with
               | None => true
               | Some ti =>
                   forallb (fun sm => negb (is_string_key (m_name sm))
                                      || assignable (m_type sm) ti) sms
                   && match sidx with
                      | Some si => assignable si ti
                      | None => true
                      end
               end
        | _ => false
        end
    | TArray ro e =>
        match t with
        | TUnknown | TAny => true
        | TInter x y => towards x && towards y
        | TUnion x y => towards x || towards y
        | TArray ro' e' => (ro' || negb ro) && assignable e e'
        | _ => memberless_assignable s t
        end
    | TTuple ro es =>
        match t with
        | TUnknown | TAny => true
        | TInter x y => towards x && towards y
        | TUnion x y => towards x || towards y
        | TArray ro' e' => (ro' || negb ro) && forallb (fun e => assignable e e') es
        | TTuple ro' es' =>
            (ro' || negb ro)
            && (fix pointwise (l l' : list ty) {struct l} : bool :=
                  match l, l' with
                  | [], [] => true
                  | e :: r, e' :: r' => assignable e e' && pointwise r r'
                  | _, _ => false
                  end) es es'
        | _ => memberless_assignable s t
        end
    | _ =>
        match t with
        | TUnknown | TAny => true
        | TInter x y => towards x && towards y
        | TUnion x y => towards x || towards y
        | _ => memberless_assignable s t
        end
    end.

(* ================================================================= *)
(** ** The library aliases of [lib.es5.d.ts], on closed object shapes *)

(** [keyof T] *)
Definition keyof (T : shape) : ty := key_union (names T).

(** [T[K]]: the union of the types read from the members named in [K]; an
    optional member reads as its type or [undefined]. *)
Definition indexed_access (T : shape) (K : ty) : ty :=
  union_of
    (flat_map (fun k => match lookup_member k T with
                        | Some m =>
                            [if m_optional m
                             then mk_union (m_type m) TUndefined
                             else m_type m]
                        | None => []
                        end) (literal_keys K)).

(** [type Partial<T> = { [P in keyof T]?: T[P] }] *)
Definition make_optional (m : member) : member :=
  Member (m_name m) true (m_type m).

Definition Partial (T : shape) : shape := map make_optional T.

(** [type Pick<T, K extends keyof T> = { [P in K]: T[P] }]: a homomorphic
    mapped type, each member [P] keeps the modifiers it has in [T]. *)
Definition Pick (T : shape) (K : ty) : shape :=
  flat_map (fun k => match lookup_member k T with
                     | Some m => [m]
                     | None => []
                     end) (literal_keys K).

(** [type Exclude<T, U> = T extends U ? never : T], distributive in [T]. *)
Definition Exclude (T U : ty) : ty :=
  distribute (fun t => if assignable t U then TNever else t) T.

(** [type Omit<T, K extends keyof any> = Pick<T, Exclude<keyof T, K>>] *)
Definition Omit (T : shape) (K : ty) : shape := Pick T (Exclude (keyof T) K).

(* ================================================================= *)
(** ** [generics.ts] *)

(** [export interface AnyObject { [key: string]: unknown; }] *)
Definition AnyObject : ty := TObject [] (Some TUnknown).

(** [export type WithUnknown<T> = T & AnyObject;] *)
Definition WithUnknown (T : ty) : ty := TInter T AnyObject.

(** [export type SomeRequired<T, K extends keyof T> = Pick<T, K> & Partial<T>;] *)
Definition SomeRequired (T : shape) (K : ty) : ty :=
  TInter (TShape (Pick T K)) (TShape (Partial T)).

(** [export type WithOptional<T, K extends keyof T> =
      Pick<Partial<T>, K> & Omit<T, K>;] *)
Definition WithOptional (T : shape) (K : ty) : ty :=
  TInter (TShape (Pick (Partial T) K)) (TShape (Omit T K)).

(** [export type ObjectValues<T> = T[keyof T];] *)
Definition ObjectValues (T : shape) : ty := indexed_access T (keyof T).

(** [export type ObjectKeys<T> = keyof T;] *)
Definition ObjectKeys (T : shape) : ty := keyof T.

(** [declare const __brand: unique symbol;] *)
Definition __brand : key := KSym "__brand".

(** [export type Brand<B> = { [__brand]: B };] *)
Definition Brand (B : ty) : ty := TObject [Member __brand false B] None.

(** [export type Serialized<T> = string & Brand<T>;] *)
Definition Serialized (T : ty) : ty := TInter TString (Brand T).

(** The candidate for [U] when a type is matched against
    [readonly (infer U)[]]: the element type of an array, the union of the
    element types of a tuple; of the candidates the members of an
    intersection give, the last one stands. *)
Fixpoint infer_element (t : ty) : option ty :=
  match t with
  | TArray _ e => Some e
  | TTuple _ es => Some (union_of es)
  | TInter a b => merge (fun _ u => u) (infer_element a) (infer_element b)
  | _ => None
  end.

(** [any], alone or in an intersection ([any & X] is [any]). *)
Fixpoint is_any (t : ty) : bool :=
  match t with
  | TAny => true
  | TInter a b => is_any a || is_any b
  | _ => false
  end.

(** [export type Unionize<T> = T extends readonly (infer U)[] ? U : never;]
    distributive in [T]; without a candidate [U] stands for [unknown].  A
    conditional type whose checked type is [any] resolves to the union of
    its two branches. *)
Definition Unionize (T : ty) : ty :=
  distribute
    (fun t =>
       let U := match infer_element t with Some u => u | None => TUnknown end in
       if is_any t then mk_union U TNever
       else if assignable t (TArray true U) then U else TNever)
    T.

(* ================================================================= *)
(** ** The shapes the specification describes

    Each definition below is written from the wording of the specification,
    to be compared with the alias of [generics.ts] it speaks about. *)

Definition make_required (m : member) : member :=
  Member (m_name m) false (m_type m).

(** "members named in K keep T's required-ness; all other members of T
    become optional" *)
Definition keep_selected (K : list key) (m : member) : member :=
  if mem_key (m_name m) K then m else make_optional m.

Definition SomeRequired_spec (T : shape) (K : list key) : shape :=
  map (keep_selected K) T.

(** "all optional, selected ones pinned required" *)
Definition pin_selected (K : list key) (m : member) : member :=
  if mem_key (m_name m) K then make_required m else make_optional m.

Definition SomeRequired_pinned (T : shape) (K : list key) : shape :=
  map (pin_selected K) T.

(** Every member of [T] named in [K] is declared required. *)
Definition selected_required (T : shape) (K : list key) : bool :=
  forallb (fun m => implb (mem_key (m_name m) K) (negb (m_optional m))) T.

(** "members named in K become optional; all other members of T remain as
    declared" *)
Definition relax_selected (K : list key) (m : member) : member :=
  if mem_key (m_name m) K then make_optional m else m.

Definition WithOptional_spec (T : shape) (K : list key) : shape :=
  map (relax_selected K) T.

(** "T's declared members, plus an implicit allowance for any additional
    string-keyed member of unknown type": as a type, and as a test on the
    members of an object literal (each declared member is there as
    declared, any other member has a string name).
    [WithUnknown_literal_open] is the same test without the condition on
    the names of the other members. *)
Definition WithUnknown_spec (T : shape) : ty := TObject T (Some TUnknown).

Definition WithUnknown_literal_spec (T : shape) (fs : list (key * value)) : bool :=
  forallb (member_ok (VObj fs)) T
  && forallb (fun f => match lookup_member (fst f) T with
                       | Some m => no_excess (m_type m) (snd f)
                       | None => is_string_key (fst f)
                       end) fs.

Definition WithUnknown_literal_open (T : shape) (fs : list (key * value)) : bool :=
  forallb (member_ok (VObj fs)) T
  && forallb (fun f => match lookup_member (fst f) T with
                       | Some m => no_excess (m_type m) (snd f)
                       | None => true
                       end) fs.

(** Two targets that know the same members, with interchangeable types. *)
Definition same_known (t u : ty) : Prop :=
  forall k,
    match known_prop t k, known_prop u k with
    | Some a, Some b => forall v, no_excess a v = no_excess b v
    | None, None => True
    | _, _ => False
    end.



(** Neither [never] nor a union: such a source meets a union target through
    one of the target's members. *)
Definition single (s : ty) : bool :=
  match s with
  | TNever | TUnion _ _ => false
  | _ => true
  end.


(** Every member of an object literal has a string name. *)
Definition string_keyed (fs : list (key * value)) : bool :=
  forallb (fun f => is_string_key (fst f)) fs.

(** Every name of [K] is a name of [K']. *)
Definition subset_keys (K K' : list key) : bool :=
  forallb (fun k => mem_key k K') K.

(* ================================================================= *)
(** ** Shapes and literals of the documented examples *)

Definition req (k : string) (t : ty) : member := Member (KStr k) false t.
Definition opt (k : string) (t : ty) : member := Member (KStr k) true t.

(** [{ a: A; b: B; c: C }] *)
Definition abc (A B C : ty) : shape := [req "a" A; req "b" B; req "c" C].

(** [{ INFO: "info", WARN: "warn" } as const] *)
Definition LogLevel : shape :=
  [req "INFO" (TStrLit "info"); req "WARN" (TStrLit "warn")].

(** [["foo", "bar", "baz"] as const] *)
Definition things : ty :=
  TTuple true [TStrLit "foo"; TStrLit "bar"; TStrLit "baz"].

(* ================================================================= *)
(** * Properties *)

(** ** Names and lookups *)

Lemma key_eqb_eq (a b : key) : key_eqb a b = true <-> a = b.
Proof.
  destruct a, b; simpl; try (split; [discriminate | intros E; inversion E]).
  - rewrite String.eqb_eq. split; intros E; [now subst | now inversion E].
  - rewrite String.eqb_eq. split; intros E; [now subst | now inversion E].
Qed.

Lemma key_eqb_refl (k : key) : key_eqb k k = true.
Proof. now apply key_eqb_eq. Qed.

Lemma key_eqb_sym (a b : key) : key_eqb a b = key_eqb b a.
Proof.
  destruct (key_eqb a b) eqn:E.
  - apply key_eqb_eq in E. subst. now rewrite key_eqb_refl.
  - destruct (key_eqb b a) eqn:E'; [|reflexivity].
    apply key_eqb_eq in E'. subst. now rewrite key_eqb_refl in E.
Qed.

Lemma mem_key_In (k : key) (ks : list key) : mem_key k ks = true <-> In k ks.
Proof.
  unfold mem_key. rewrite existsb_exists. split.
  - intros [x [Hin E]]. apply key_eqb_eq in E. now subst.
  - intros Hin. exists k. split; [assumption | apply key_eqb_refl].
Qed.

Lemma unique_keys_NoDup (ks : list key) : unique_keys ks = true <-> NoDup ks.
Proof.
  induction ks as [|k ks IH]; simpl.
  - split; [constructor | reflexivity].
  - rewrite andb_true_iff, negb_true_iff, IH. split.
    + intros [Hk Hnd]. constructor; [|assumption].
      intros Hin. apply mem_key_In in Hin. congruence.
    + intros Hnd. inversion Hnd as [|? ? Hk Hnd']; subst. split; [|assumption].
      destruct (mem_key k ks) eqn:E; [|reflexivity].
      apply mem_key_In in E. contradiction.
Qed.

Lemma lookup_member_name (k : key) (T : shape) (m : member) :
  lookup_member k T = Some m -> m_name m = k /\ In m T.
Proof.
  induction T as [|m' T IH]; simpl; [discriminate|].
  destruct (key_eqb (m_name m') k) eqn:E.
  - intros H. inversion H; subst. apply key_eqb_eq in E. auto.
  - intros H. destruct (IH H). auto.
Qed.

Lemma lookup_member_None (k : key) (T : shape) :
  lookup_member k T = None <-> ~ In k (names T).
Proof.
  induction T as [|m T IH]; simpl.
  - split; [auto | reflexivity].
  - destruct (key_eqb (m_name m) k) eqn:E.
    + apply key_eqb_eq in E. split; [discriminate | intros H; exfalso; auto].
    + rewrite IH. split.
      * intros H [H'|H']; [|auto]. subst. now rewrite key_eqb_refl in E.
      * intros H H'. auto.
Qed.

(** In a shape with unique names a member is found under its own name. *)
Lemma lookup_member_unique (T : shape) (m : member) :
  unique_names T = true -> In m T -> lookup_member (m_name m) T = Some m.
Proof.
  unfold unique_names. rewrite unique_keys_NoDup.
  induction T as [|m' T IH]; simpl; [contradiction|].
  intros Hnd [E|Hin]; inversion Hnd as [|? ? Hk Hnd']; subst.
  - now rewrite key_eqb_refl.
  - destruct (key_eqb (m_name m') (m_name m)) eqn:E.
    + apply key_eqb_eq in E. exfalso. apply Hk. rewrite E.
      unfold names. now apply in_map.
    + auto.
Qed.

(** ** Identity of types *)

Lemma ty_eqb_refl (t : ty) : ty_eqb t t = true.
Proof.
  induction t as [ | | | | | | | s | n | b | id | ms idx IHms IHidx
                 | ro e IHe | ro es IHes | a b IHa IHb | a b IHa IHb | ]
    using ty_nested_ind; simpl; try reflexivity.
  - apply String.eqb_refl.
  - apply Z.eqb_refl.
  - apply Bool.eqb_reflx.
  - apply String.eqb_refl.
  - apply andb_true_iff. split.
    + induction IHms as [|m r Hm Hr IH]; [reflexivity|].
      now rewrite key_eqb_refl, Bool.eqb_reflx, Hm, IH.
    + destruct idx; auto.
  - now rewrite Bool.eqb_reflx, IHe.
  - rewrite Bool.eqb_reflx. simpl.
    induction IHes as [|e r He Hr IH]; [reflexivity|].
    now rewrite He, IH.
  - now rewrite IHa, IHb.
  - now rewrite IHa, IHb.
Qed.

(** ** Unions and their constituents *)

Lemma constituents_mk_union (a b : ty) :
  constituents (mk_union a b) = constituents a ++ constituents b.
Proof.
  destruct a; destruct b; simpl; rewrite ?app_nil_r; reflexivity.
Qed.

Lemma constituents_union_of (ts : list ty) :
  constituents (union_of ts) = flat_map constituents ts.
Proof.
  induction ts as [|t ts IH]; simpl; [reflexivity|].
  now rewrite constituents_mk_union, IH.
Qed.

Lemma constituents_key_type (k : key) : constituents (key_type k) = [key_type k].
Proof. now destruct k. Qed.

Lemma constituents_key_union (ks : list key) :
  constituents (key_union ks) = map key_type ks.
Proof.
  unfold key_union. rewrite constituents_union_of.
  induction ks as [|k ks IH]; simpl; [reflexivity|].
  now rewrite constituents_key_type, IH.
Qed.

Lemma literal_keys_key_union (ks : list key) : literal_keys (key_union ks) = ks.
Proof.
  unfold literal_keys. rewrite constituents_key_union.
  induction ks as [|k ks IH]; simpl; [reflexivity|].
  rewrite IH. now destruct k.
Qed.

Lemma has_type_mk_union (a b : ty) (v : value) :
  has_type (mk_union a b) v = has_type a v || has_type b v.
Proof.
  destruct a; destruct b; simpl; rewrite ?orb_false_r; reflexivity.
Qed.

Lemma has_type_union_of (ts : list ty) (v : value) :
  has_type (union_of ts) v = existsb (fun t => has_type t v) ts.
Proof.
  induction ts as [|t ts IH]; simpl; [reflexivity|].
  now rewrite has_type_mk_union, IH.
Qed.

(** ** Conformance to an object type *)

Lemma has_type_TObject (ms : list member) (idx : option ty) (v : value) :
  has_type (TObject ms idx) v
  = negb (is_nullish v) && forallb (member_ok v) ms && index_ok idx v.
Proof. reflexivity. Qed.

Lemma has_type_TInter (a b : ty) (v : value) :
  has_type (TInter a b) v = has_type a v && has_type b v.
Proof. reflexivity. Qed.

Lemma member_ok_make_optional (v : value) (m : member) :
  member_ok v m = true -> member_ok v (make_optional m) = true.
Proof.
  unfold member_ok, make_optional. simpl.
  destruct (get_member v (m_name m)); [|reflexivity].
  intros H. apply orb_true_iff in H. apply orb_true_iff.
  destruct H as [H|H]; [now left | right].
  apply andb_true_iff in H. now destruct H.
Qed.

Lemma lookup_member_map (f : member -> member) (k : key) (T : shape) :
  (forall m, m_name (f m) = m_name m) ->
  lookup_member k (map f T) = option_map f (lookup_member k T).
Proof.
  intros Hf. induction T as [|m T IH]; simpl; [reflexivity|].
  rewrite Hf. now destruct (key_eqb (m_name m) k).
Qed.

Lemma names_map (f : member -> member) (T : shape) :
  (forall m, m_name (f m) = m_name m) -> names (map f T) = names T.
Proof.
  intros Hf. unfold names. rewrite map_map. apply map_ext. exact Hf.
Qed.

(** [Pick] over a finite set of names keeps the members so named. *)
Lemma Pick_key_union (T : shape) (K : list key) :
  Pick T (key_union K)
  = flat_map (fun k => match lookup_member k T with
                       | Some m => [m]
                       | None => []
                       end) K.
Proof. unfold Pick. now rewrite literal_keys_key_union. Qed.

Lemma Pick_nil (K : ty) : Pick [] K = [].
Proof.
  unfold Pick. induction (literal_keys K) as [|k ks IH]; simpl; auto.
Qed.

Lemma In_Pick (T : shape) (K : list key) (m : member) :
  In m (Pick T (key_union K))
  <-> exists k, In k K /\ lookup_member k T = Some m.
Proof.
  rewrite Pick_key_union, in_flat_map. split.
  - intros [k [Hk Hm]]. exists k. split; [assumption|].
    destruct (lookup_member k T); simpl in Hm; [|contradiction].
    destruct Hm as [E|[]]. now subst.
  - intros [k [Hk Hm]]. exists k. split; [assumption|].
    rewrite Hm. now left.
Qed.

Lemma lookup_member_Pick (T : shape) (K : list key) (k : key) :
  lookup_member k (Pick T (key_union K))
  = if mem_key k K then lookup_member k T else None.
Proof.
  rewrite Pick_key_union.
  induction K as [|k' K IH]; simpl; [reflexivity|].
  destruct (lookup_member k' T) as [m|] eqn:E; simpl.
  - destruct (lookup_member_name _ _ _ E) as [Hn _]. rewrite Hn.
    rewrite (key_eqb_sym k k').
    destruct (key_eqb k' k) eqn:Ek; simpl.
    + apply key_eqb_eq in Ek. now subst.
    + exact IH.
  - rewrite IH. destruct (key_eqb k k') eqn:Ek; simpl; [|reflexivity].
    apply key_eqb_eq in Ek. subst. rewrite E. now destruct (mem_key k' K).
Qed.

(** ** The excess-property check *)

Lemma forallb_eq_in (A : Type) (f g : A -> bool) (l : list A) :
  (forall x, In x l -> f x = g x) -> forallb f l = forallb g l.
Proof.
  induction l as [|x l IH]; simpl; intros H; [reflexivity|].
  rewrite (H x), IH; auto.
Qed.

Lemma nonempty_In (A : Type) (x : A) (l : list A) :
  In x l -> match l with [] => true | _ :: _ => false end = false.
Proof. destruct l; [contradiction|reflexivity]. Qed.

Lemma no_excess_VObj (t : ty) (fs : list (key * value)) :
  no_excess t (VObj fs)
  = negb (excess_target t) || is_empty_object t
    || forallb (fun f => match known_prop t (fst f) with
                         | Some t' => no_excess t' (snd f)
                         | None => false
                         end) fs.
Proof. reflexivity. Qed.

(** Targets that know the same members pass the same object literals. *)
Lemma no_excess_VObj_ext (t u : ty) (fs : list (key * value)) :
  excess_target t = excess_target u ->
  is_empty_object t = is_empty_object u ->
  same_known t u ->
  no_excess t (VObj fs) = no_excess u (VObj fs).
Proof.
  intros Ht He Hk. rewrite !no_excess_VObj, Ht, He. f_equal.
  apply forallb_eq_in. intros f _. specialize (Hk (fst f)).
  destruct (known_prop t (fst f)), (known_prop u (fst f));
    try contradiction; auto.
Qed.

Lemma known_prop_inter_diag (t : ty) (k : key) :
  known_prop (TInter t t) k = option_map (fun x => TInter x x) (known_prop t k).
Proof.
  unfold known_prop. simpl.
  destruct (declared_prop t k); simpl; [reflexivity|].
  now destruct (index_prop t k).
Qed.

Lemma no_excess_inter_diag (v : value) :
  forall t, no_excess (TInter t t) v = no_excess t v.
Proof.
  induction v as [ | | b | n | s | id | fs IH | xs IH ] using value_nested_ind;
    intros t; try reflexivity.
  - rewrite !no_excess_VObj. simpl excess_target. simpl is_empty_object.
    rewrite orb_diag, andb_diag. f_equal.
    induction IH as [|f r Hf Hr IHr]; simpl; [reflexivity|].
    rewrite known_prop_inter_diag, IHr.
    destruct (known_prop t (fst f)); simpl; [|reflexivity].
    now rewrite Hf.
  - simpl. generalize 0%nat.
    induction IH as [|x r Hx Hr IHr]; intros i; simpl; [reflexivity|].
    rewrite IHr. destruct (item_type t i); simpl; [|reflexivity].
    now rewrite Hx.
Qed.

Lemma is_empty_object_TShape (T : shape) :
  is_empty_object (TShape T) = match T with [] => true | _ => false end.
Proof. now destruct T. Qed.

Lemma known_prop_TShape (T : shape) (k : key) :
  known_prop (TShape T) k = option_map m_type (lookup_member k T).
Proof.
  unfold known_prop. simpl. now destruct (lookup_member k T).
Qed.

Lemma known_prop_TInter_TShape (P Q : shape) (k : key) :
  known_prop (TInter (TShape P) (TShape Q)) k
  = merge TInter (option_map m_type (lookup_member k P))
                 (option_map m_type (lookup_member k Q)).
Proof.
  unfold known_prop. simpl.
  now destruct (lookup_member k P), (lookup_member k Q).
Qed.

(** Outside object literals the check has nothing to say about an
    intersection of closed shapes. *)
Lemma no_excess_TInter_TShape_other (P Q R : shape) (v : value) :
  (forall fs, v <> VObj fs) ->
  no_excess (TInter (TShape P) (TShape Q)) v = no_excess (TShape R) v.
Proof.
  intros Hv. destruct v; try reflexivity. now destruct (Hv fields).
Qed.

(** ** [SomeRequired] *)

Lemma keep_selected_name (K : list key) (m : member) :
  m_name (keep_selected K m) = m_name m.
Proof. unfold keep_selected. now destruct (mem_key (m_name m) K). Qed.

Lemma keep_selected_type (K : list key) (m : member) :
  m_type (keep_selected K m) = m_type m.
Proof. unfold keep_selected. now destruct (mem_key (m_name m) K). Qed.

Section SomeRequiredFacts.
Variable T : shape.
Variable K : list key.
Hypothesis T_unique : unique_names T = true.

Lemma SomeRequired_members (v : value) :
  forallb (member_ok v) (Pick T (key_union K))
  && forallb (member_ok v) (Partial T)
  = forallb (member_ok v) (SomeRequired_spec T K).
Proof.
  apply eq_true_iff_eq.
  rewrite andb_true_iff, !forallb_forall. split.
  - intros [HP HQ] m' Hm'.
    apply in_map_iff in Hm'. destruct Hm' as [m [E Hm]]. subst m'.
    unfold keep_selected.
    destruct (mem_key (m_name m) K) eqn:EK.
    + apply HP. apply In_Pick. exists (m_name m). split.
      * now apply mem_key_In.
      * now apply lookup_member_unique.
    + apply HQ. unfold Partial. now apply in_map.
  - intros H. split.
    + intros m Hm. apply In_Pick in Hm. destruct Hm as [k [Hk Hm]].
      destruct (lookup_member_name _ _ _ Hm) as [En Hin].
      specialize (H (keep_selected K m) (in_map (keep_selected K) _ _ Hin)).
      unfold keep_selected in H.
      assert (EK : mem_key (m_name m) K = true)
        by (apply mem_key_In; now rewrite En).
      now rewrite EK in H.
    + intros m' Hm'. apply in_map_iff in Hm'. destruct Hm' as [m [E Hm]].
      subst m'.
      specialize (H (keep_selected K m) (in_map (keep_selected K) _ _ Hm)).
      unfold keep_selected in H.
      destruct (mem_key (m_name m) K); [|assumption].
      now apply member_ok_make_optional.
Qed.

Lemma SomeRequired_has_type (v : value) :
  has_type (SomeRequired T (key_union K)) v
  = has_type (TShape (SomeRequired_spec T K)) v.
Proof.
  unfold SomeRequired, TShape. rewrite has_type_TInter.
  rewrite !has_type_TObject. simpl index_ok. rewrite !andb_true_r.
  rewrite <- SomeRequired_members.
  now destruct (negb (is_nullish v)).
Qed.

Lemma SomeRequired_same_known :
  same_known (SomeRequired T (key_union K)) (TShape (SomeRequired_spec T K)).
Proof.
  intros k. unfold SomeRequired.
  rewrite known_prop_TInter_TShape, known_prop_TShape.
  rewrite lookup_member_Pick.
  unfold Partial, SomeRequired_spec.
  rewrite (lookup_member_map make_optional) by reflexivity.
  rewrite (lookup_member_map _ k T (keep_selected_name K)).
  destruct (lookup_member k T) as [m|]; simpl.
  - destruct (mem_key k K); simpl; intros v.
    + rewrite keep_selected_type. apply no_excess_inter_diag.
    + now rewrite keep_selected_type.
  - now destruct (mem_key k K).
Qed.

Lemma SomeRequired_no_excess (v : value) :
  no_excess (SomeRequired T (key_union K)) v
  = no_excess (TShape (SomeRequired_spec T K)) v.
Proof.
  destruct v;
    try (apply no_excess_TInter_TShape_other; intros fs; discriminate).
  apply no_excess_VObj_ext.
  - reflexivity.
  - unfold SomeRequired. simpl is_empty_object at 1.
    rewrite !is_empty_object_TShape.
    unfold Partial, SomeRequired_spec.
    destruct T; simpl; [now rewrite Pick_nil|apply andb_false_r].
  - apply SomeRequired_same_known.
Qed.

(** [SomeRequired<T, K>] and the shape the specification describes accept
    the same literals. *)
Lemma SomeRequired_accepts (v : value) :
  accepts (SomeRequired T (key_union K)) v
  = accepts (TShape (SomeRequired_spec T K)) v.
Proof.
  unfold accepts. now rewrite SomeRequired_has_type, SomeRequired_no_excess.
Qed.
End SomeRequiredFacts.

(** ** Assignability of key types, [Exclude] and [Omit] *)

Lemma assignable_key_type (k k' : key) :
  assignable (key_type k) (key_type k') = key_eqb k k'.
Proof.
  destruct k, k'; simpl; try reflexivity.
  - now destruct (String.eqb s s0).
  - now destruct (String.eqb id id0).
Qed.

Lemma assignable_key_never (k : key) : assignable (key_type k) TNever = false.
Proof. now destruct k. Qed.

Lemma assignable_key_mk_union (k k' : key) (b : ty) :
  assignable (key_type k) (mk_union (key_type k') b)
  = assignable (key_type k) (key_type k') || assignable (key_type k) b.
Proof.
  destruct b;
    try (destruct k, k'; reflexivity).
  rewrite assignable_key_never, orb_false_r. now destruct k'.
Qed.

(** A key type extends a union of key types when it is one of them. *)
Lemma assignable_key_union (k : key) (K : list key) :
  assignable (key_type k) (key_union K) = mem_key k K.
Proof.
  induction K as [|k' K IH]; simpl.
  - apply assignable_key_never.
  - unfold key_union in *. simpl.
    now rewrite assignable_key_mk_union, assignable_key_type, IH.
Qed.

Lemma Exclude_key_union (ks K : list key) :
  Exclude (key_union ks) (key_union K)
  = key_union (filter (fun k => negb (mem_key k K)) ks).
Proof.
  unfold Exclude, distribute. rewrite constituents_key_union.
  induction ks as [|k ks IH]; simpl; [reflexivity|].
  rewrite assignable_key_union, IH.
  destruct (mem_key k K); simpl; [|reflexivity].
  now destruct (key_union (filter (fun k0 => negb (mem_key k0 K)) ks)).
Qed.

Lemma Omit_key_union (T : shape) (K : list key) :
  Omit T (key_union K)
  = Pick T (key_union (filter (fun k => negb (mem_key k K)) (names T))).
Proof. unfold Omit, keyof. now rewrite Exclude_key_union. Qed.

Lemma mem_key_filter (f : key -> bool) (k : key) (ks : list key) :
  mem_key k (filter f ks) = mem_key k ks && f k.
Proof.
  apply eq_true_iff_eq.
  rewrite andb_true_iff, !mem_key_In, filter_In. tauto.
Qed.

Lemma lookup_member_Omit (T : shape) (K : list key) (k : key) :
  lookup_member k (Omit T (key_union K))
  = if mem_key k K then None else lookup_member k T.
Proof.
  rewrite Omit_key_union, lookup_member_Pick, mem_key_filter.
  destruct (mem_key k K); simpl; [now rewrite andb_false_r|].
  rewrite andb_true_r.
  destruct (mem_key k (names T)) eqn:E; [reflexivity|].
  symmetry. apply lookup_member_None. intros Hin.
  apply mem_key_In in Hin. congruence.
Qed.

Lemma In_Omit (T : shape) (K : list key) (m : member) :
  In m (Omit T (key_union K))
  <-> mem_key (m_name m) K = false /\ lookup_member (m_name m) T = Some m.
Proof.
  rewrite Omit_key_union, In_Pick. split.
  - intros [k [Hk Hm]]. apply filter_In in Hk. destruct Hk as [_ Hk].
    destruct (lookup_member_name _ _ _ Hm) as [En _]. subst k.
    split; [now apply negb_true_iff|assumption].
  - intros [Hk Hm]. exists (m_name m). split; [|assumption].
    apply filter_In. split.
    + destruct (lookup_member_name _ _ _ Hm) as [_ Hin].
      unfold names. now apply in_map.
    + now apply negb_true_iff.
Qed.

(** ** [WithOptional] *)

Lemma relax_selected_name (K : list key) (m : member) :
  m_name (relax_selected K m) = m_name m.
Proof. unfold relax_selected. now destruct (mem_key (m_name m) K). Qed.

Lemma relax_selected_type (K : list key) (m : member) :
  m_type (relax_selected K m) = m_type m.
Proof. unfold relax_selected. now destruct (mem_key (m_name m) K). Qed.

Section WithOptionalFacts.
Variable T : shape.
Variable K : list key.
Hypothesis T_unique : unique_names T = true.

Lemma WithOptional_members (v : value) :
  forallb (member_ok v) (Pick (Partial T) (key_union K))
  && forallb (member_ok v) (Omit T (key_union K))
  = forallb (member_ok v) (WithOptional_spec T K).
Proof.
  apply eq_true_iff_eq.
  rewrite andb_true_iff, !forallb_forall. split.
  - intros [HP HQ] m' Hm'.
    apply in_map_iff in Hm'. destruct Hm' as [m [E Hm]]. subst m'.
    unfold relax_selected.
    destruct (mem_key (m_name m) K) eqn:EK.
    + apply HP. apply In_Pick. exists (m_name m). split.
      * now apply mem_key_In.
      * unfold Partial.
        rewrite (lookup_member_map make_optional) by reflexivity.
        now rewrite lookup_member_unique.
    + apply HQ. apply In_Omit. split; [assumption|].
      now apply lookup_member_unique.
  - intros H. split.
    + intros m' Hm'. apply In_Pick in Hm'. destruct Hm' as [k [Hk Hm']].
      unfold Partial in Hm'.
      rewrite (lookup_member_map make_optional) in Hm' by reflexivity.
      destruct (lookup_member k T) as [m|] eqn:Em; [|discriminate].
      simpl in Hm'. inversion Hm'; subst m'.
      destruct (lookup_member_name _ _ _ Em) as [En Hin].
      specialize (H (relax_selected K m) (in_map (relax_selected K) _ _ Hin)).
      unfold relax_selected in H.
      assert (EK : mem_key (m_name m) K = true)
        by (apply mem_key_In; now rewrite En).
      now rewrite EK in H.
    + intros m Hm. apply In_Omit in Hm. destruct Hm as [EK Hm].
      destruct (lookup_member_name _ _ _ Hm) as [_ Hin].
      specialize (H (relax_selected K m) (in_map (relax_selected K) _ _ Hin)).
      unfold relax_selected in H. now rewrite EK in H.
Qed.

Lemma WithOptional_has_type (v : value) :
  has_type (WithOptional T (key_union K)) v
  = has_type (TShape (WithOptional_spec T K)) v.
Proof.
  unfold WithOptional, TShape. rewrite has_type_TInter.
  rewrite !has_type_TObject. simpl index_ok. rewrite !andb_true_r.
  rewrite <- WithOptional_members.
  now destruct (negb (is_nullish v)).
Qed.

Lemma WithOptional_same_known :
  same_known (WithOptional T (key_union K)) (TShape (WithOptional_spec T K)).
Proof.
  intros k. unfold WithOptional.
  rewrite known_prop_TInter_TShape, known_prop_TShape.
  rewrite lookup_member_Pick, lookup_member_Omit.
  unfold Partial, WithOptional_spec.
  rewrite (lookup_member_map make_optional) by reflexivity.
  rewrite (lookup_member_map _ k T (relax_selected_name K)).
  destruct (lookup_member k T) as [m|]; simpl.
  - destruct (mem_key k K); simpl; intros v;
      now rewrite relax_selected_type.
  - now destruct (mem_key k K).
Qed.

Lemma WithOptional_no_excess (v : value) :
  no_excess (WithOptional T (key_union K)) v
  = no_excess (TShape (WithOptional_spec T K)) v.
Proof.
  destruct v;
    try (apply no_excess_TInter_TShape_other; intros fs; discriminate).
  apply no_excess_VObj_ext.
  - reflexivity.
  - unfold WithOptional. simpl is_empty_object at 1.
    rewrite !is_empty_object_TShape.
    unfold WithOptional_spec.
    destruct T as [|m T'].
    + unfold Omit. now rewrite !Pick_nil.
    + change (match map (relax_selected K) (m :: T') with
              | [] => true | _ :: _ => false end) with false.
      destruct (mem_key (m_name m) K) eqn:EK.
      * rewrite (nonempty_In (member_of ty) (make_optional m)); [reflexivity|].
        apply In_Pick. exists (m_name m). split; [now apply mem_key_In|].
        simpl. now rewrite key_eqb_refl.
      * rewrite (nonempty_In (member_of ty) m (Omit (m :: T') (key_union K)));
          [apply andb_false_r|].
        apply In_Omit. split; [assumption|].
        simpl. now rewrite key_eqb_refl.
  - apply WithOptional_same_known.
Qed.

(** [WithOptional<T, K>] and the shape the specification describes accept
    the same literals. *)
Lemma WithOptional_accepts (v : value) :
  accepts (WithOptional T (key_union K)) v
  = accepts (TShape (WithOptional_spec T K)) v.
Proof.
  unfold accepts. now rewrite WithOptional_has_type, WithOptional_no_excess.
Qed.
End WithOptionalFacts.

(** ** Closed shapes against object literals *)

Lemma accepts_split (t : ty) (v : value) :
  accepts t v = true <-> has_type t v = true /\ no_excess t v = true.
Proof. unfold accepts. apply andb_true_iff. Qed.

Lemma has_type_TShape_VObj (T : shape) (fs : list (key * value)) :
  has_type (TShape T) (VObj fs) = forallb (member_ok (VObj fs)) T.
Proof.
  unfold TShape. rewrite has_type_TObject. simpl. now rewrite andb_true_r.
Qed.

(** A literal that leaves out a required member does not conform. *)
Lemma missing_required (T : shape) (m : member) (fs : list (key * value)) :
  In m T -> m_optional m = false -> lookup_field (m_name m) fs = None ->
  has_type (TShape T) (VObj fs) = false.
Proof.
  intros Hin Hreq Hmiss. rewrite has_type_TShape_VObj.
  destruct (forallb (member_ok (VObj fs)) T) eqn:E; [|reflexivity].
  rewrite forallb_forall in E. specialize (E m Hin).
  unfold member_ok in E. simpl in E. rewrite Hmiss in E. congruence.
Qed.

Lemma accepts_missing_required (T : shape) (m : member) (fs : list (key * value)) :
  In m T -> m_optional m = false -> lookup_field (m_name m) fs = None ->
  accepts (TShape T) (VObj fs) = false.
Proof.
  intros Hin Hreq Hmiss. unfold accepts.
  now rewrite (missing_required T m fs Hin Hreq Hmiss).
Qed.

(** ** Specification of [SomeRequired] *)

Lemma SomeRequired_abc (A B C : ty) (v : value) :
  accepts (SomeRequired (abc A B C) (TStrLit "a")) v
  = accepts (TShape [req "a" A; opt "b" B; opt "c" C]) v.
Proof.
  exact (SomeRequired_accepts (abc A B C) [KStr "a"] eq_refl v).
Qed.

(** C1.  [SomeRequired<T, K>] accepts exactly the literals accepted by the
    shape in which the members named in [K] are as [T] declares them and
    every other member of [T] is optional.  For [T = { a; b; c }] and
    [K = "a"]: a literal with only [a] is accepted, one with [a] and [b] but
    no [c] is accepted, one without [a] is rejected. *)
Theorem SomeRequired_keeps_selected :
  (forall (T : shape) (K : list key),
      unique_names T = true ->
      forall fs, accepts (SomeRequired T (key_union K)) (VObj fs)
                 = accepts (TShape (SomeRequired_spec T K)) (VObj fs))
  /\ (forall A B C va,
         accepts A va = true ->
         accepts (SomeRequired (abc A B C) (TStrLit "a"))
                 (VObj [(KStr "a", va)]) = true)
  /\ (forall A B C va vb,
         accepts A va = true -> accepts B vb = true ->
         accepts (SomeRequired (abc A B C) (TStrLit "a"))
                 (VObj [(KStr "a", va); (KStr "b", vb)]) = true)
  /\ (forall A B C fs,
         lookup_field (KStr "a") fs = None ->
         accepts (SomeRequired (abc A B C) (TStrLit "a")) (VObj fs) = false).
Proof.
  split; [|split; [|split]].
  - intros T K HT fs. now apply SomeRequired_accepts.
  - intros A B C va Ha. apply accepts_split in Ha. destruct Ha as [Ha Ha'].
    rewrite SomeRequired_abc. unfold accepts. simpl.
    now rewrite Ha, Ha'.
  - intros A B C va vb Ha Hb.
    apply accepts_split in Ha. destruct Ha as [Ha Ha'].
    apply accepts_split in Hb. destruct Hb as [Hb Hb'].
    rewrite SomeRequired_abc. unfold accepts. simpl.
    now rewrite Ha, Ha', Hb, Hb'.
  - intros A B C fs Hmiss. rewrite SomeRequired_abc.
    apply (accepts_missing_required _ (req "a" A)); simpl; auto.
Qed.

Lemma SomeRequired_keeps_selected_witness :
  unique_names (abc TString TString TString) = true
  /\ forall fs,
      accepts (SomeRequired (abc TString TString TString)
                            (key_union [KStr "a"])) (VObj fs)
      = accepts (TShape (SomeRequired_spec (abc TString TString TString)
                                            [KStr "a"])) (VObj fs).
Proof.
  split; [reflexivity|].
  apply (proj1 SomeRequired_keeps_selected); reflexivity.
Defined.

Lemma SomeRequired_spec_all (T : shape) : SomeRequired_spec T (names T) = T.
Proof.
  unfold SomeRequired_spec. rewrite <- (map_id T) at 3.
  apply map_ext_in. intros m Hm. unfold keep_selected.
  assert (E : mem_key (m_name m) (names T) = true).
  { apply mem_key_In. unfold names. now apply in_map. }
  now rewrite E.
Qed.

(** C10.  Selecting every member name is the identity:
    [SomeRequired<T, keyof T>] accepts exactly what [T] accepts. *)
Theorem SomeRequired_keyof_identity :
  forall (T : shape),
    unique_names T = true ->
    forall fs, accepts (SomeRequired T (keyof T)) (VObj fs)
               = accepts (TShape T) (VObj fs).
Proof.
  intros T HT fs. unfold keyof.
  now rewrite SomeRequired_accepts, SomeRequired_spec_all.
Qed.

Lemma SomeRequired_keyof_identity_witness :
  unique_names (abc TString TNumber TBoolean) = true
  /\ forall fs,
      accepts (SomeRequired (abc TString TNumber TBoolean)
                            (keyof (abc TString TNumber TBoolean))) (VObj fs)
      = accepts (TShape (abc TString TNumber TBoolean)) (VObj fs).
Proof.
  split; [reflexivity|].
  apply (SomeRequired_keyof_identity (abc TString TNumber TBoolean)).
  reflexivity.
Defined.

Lemma SomeRequired_spec_pinned (T : shape) (K : list key) :
  selected_required T K = true ->
  SomeRequired_spec T K = SomeRequired_pinned T K.
Proof.
  unfold selected_required. intros H. rewrite forallb_forall in H.
  apply map_ext_in. intros m Hm. specialize (H m Hm).
  unfold keep_selected, pin_selected.
  destruct (mem_key (m_name m) K); [|reflexivity].
  destruct m as [n o t]. simpl in H. destruct o; [discriminate|reflexivity].
Qed.

(** C5.  The doc comment of [SomeRequired] promises that the selected
    properties "will be required so they can be relied on being present".
    The alias does not deliver it for a member named in [K] that [T]
    declares optional: [Pick] keeps the modifier and the member stays
    optional.  With [T = { a?: string }] and [K = "a"] the empty literal is
    accepted by [SomeRequired<T, K>], where the shape that pins [a] as
    required rejects it. *)
Lemma SomeRequired_optional_not_pinned :
  accepts (SomeRequired [opt "a" TString] (key_union [KStr "a"])) (VObj []) = true
  /\ accepts (TShape (SomeRequired_pinned [opt "a" TString] [KStr "a"])) (VObj [])
     = false.
Proof. split; reflexivity. Qed.

(** X1.  When every member named in [K] is declared required in [T],
    [SomeRequired<T, K>] accepts exactly the object literals accepted by the
    shape that makes every member of [T] optional and then pins the members
    named in [K] as required (as in the doc comment, where [Test1] is
    [{ foo: string; bar?: string; baz?: string }]). *)
Theorem SomeRequired_pins_required :
  forall (T : shape) (K : list key),
    unique_names T = true ->
    selected_required T K = true ->
    forall fs, accepts (SomeRequired T (key_union K)) (VObj fs)
               = accepts (TShape (SomeRequired_pinned T K)) (VObj fs).
Proof.
  intros T K HT HK fs.
  now rewrite SomeRequired_accepts, SomeRequired_spec_pinned.
Qed.

Lemma SomeRequired_pins_required_witness :
  unique_names [req "a" TString; opt "b" TNumber] = true
  /\ selected_required [req "a" TString; opt "b" TNumber] [KStr "a"] = true
  /\ forall fs,
      accepts (SomeRequired [req "a" TString; opt "b" TNumber]
                            (key_union [KStr "a"])) (VObj fs)
      = accepts (TShape (SomeRequired_pinned [req "a" TString; opt "b" TNumber]
                                              [KStr "a"])) (VObj fs).
Proof.
  split; [reflexivity|]. split; [reflexivity|].
  apply (SomeRequired_pins_required [req "a" TString; opt "b" TNumber]
                                    [KStr "a"]); reflexivity.
Defined.

(** ** Specification of [WithOptional] *)

Lemma WithOptional_abc (A B C : ty) (v : value) :
  accepts (WithOptional (abc A B C) (TStrLit "a")) v
  = accepts (TShape [opt "a" A; req "b" B; req "c" C]) v.
Proof.
  exact (WithOptional_accepts (abc A B C) [KStr "a"] eq_refl v).
Qed.

(** C2.  [WithOptional<T, K>] accepts exactly the literals accepted by the
    shape in which the members named in [K] are optional and every other
    member of [T] is as declared.  For [T = { a; b; c }], all required, and
    [K = "a"]: a literal without [a] is accepted, a literal without [b] or
    without [c] is rejected. *)
Theorem WithOptional_relaxes_selected :
  (forall (T : shape) (K : list key),
      unique_names T = true ->
      forall fs, accepts (WithOptional T (key_union K)) (VObj fs)
                 = accepts (TShape (WithOptional_spec T K)) (VObj fs))
  /\ (forall A B C vb vc,
         accepts B vb = true -> accepts C vc = true ->
         accepts (WithOptional (abc A B C) (TStrLit "a"))
                 (VObj [(KStr "b", vb); (KStr "c", vc)]) = true)
  /\ (forall A B C fs,
         lookup_field (KStr "b") fs = None \/ lookup_field (KStr "c") fs = None ->
         accepts (WithOptional (abc A B C) (TStrLit "a")) (VObj fs) = false).
Proof.
  split; [|split].
  - intros T K HT fs. now apply WithOptional_accepts.
  - intros A B C vb vc Hb Hc.
    apply accepts_split in Hb. destruct Hb as [Hb Hb'].
    apply accepts_split in Hc. destruct Hc as [Hc Hc'].
    rewrite WithOptional_abc. unfold accepts. simpl.
    now rewrite Hb, Hb', Hc, Hc'.
  - intros A B C fs [Hmiss|Hmiss]; rewrite WithOptional_abc.
    + apply (accepts_missing_required _ (req "b" B)); simpl; auto.
    + apply (accepts_missing_required _ (req "c" C)); simpl; auto.
Qed.

Lemma WithOptional_relaxes_selected_witness :
  unique_names (abc TString TString TString) = true
  /\ forall fs,
      accepts (WithOptional (abc TString TString TString)
                            (key_union [KStr "a"])) (VObj fs)
      = accepts (TShape (WithOptional_spec (abc TString TString TString)
                                            [KStr "a"])) (VObj fs).
Proof.
  split; [reflexivity|].
  apply (proj1 WithOptional_relaxes_selected); reflexivity.
Defined.

(** ** Specification of [WithUnknown] *)

Lemma forallbi_true (A : Type) (l : list A) :
  forall i, forallbi (fun _ _ => true) i l = true.
Proof. induction l as [|x l IH]; intros i; simpl; auto. Qed.

Lemma no_excess_TUnknown (v : value) : no_excess TUnknown v = true.
Proof.
  destruct v; try reflexivity. simpl. apply forallbi_true.
Qed.

Lemma index_ok_unknown (fs : list (key * value)) :
  index_ok (Some TUnknown) (VObj fs) = true.
Proof.
  simpl. apply forallb_forall. intros f _. apply orb_true_r.
Qed.

Lemma known_prop_WithUnknown (T : shape) (k : key) :
  known_prop (WithUnknown (TShape T)) k
  = match lookup_member k T with
    | Some m => Some (m_type m)
    | None => Some TUnknown
    end.
Proof.
  unfold known_prop. simpl.
  destruct (lookup_member k T); simpl; [reflexivity|].
  now destruct (is_string_key k).
Qed.

Lemma known_prop_WithUnknown_spec (T : shape) (k : key) :
  known_prop (WithUnknown_spec T) k = known_prop (WithUnknown (TShape T)) k.
Proof.
  rewrite known_prop_WithUnknown. unfold known_prop. simpl.
  destruct (lookup_member k T); simpl; [reflexivity|].
  now destruct (is_string_key k).
Qed.

(** [WithUnknown<T>] resolves to [T]'s members and a string index signature
    of type [unknown], as the alias documents. *)
Lemma WithUnknown_resolves (T : shape) (v : value) :
  accepts (WithUnknown (TShape T)) v = accepts (WithUnknown_spec T) v.
Proof.
  unfold accepts. f_equal.
  - unfold WithUnknown, WithUnknown_spec, AnyObject, TShape.
    rewrite has_type_TInter, !has_type_TObject.
    simpl forallb. simpl (index_ok None v).
    destruct (negb (is_nullish v)), (forallb (member_ok v) T),
      (index_ok (Some TUnknown) v); reflexivity.
  - destruct v; try reflexivity.
    rewrite !no_excess_VObj. f_equal.
    + simpl. now destruct T.
    + apply forallb_eq_in. intros f _.
      now rewrite known_prop_WithUnknown_spec.
Qed.

Lemma WithUnknown_literal (T : shape) (fs : list (key * value)) :
  accepts (WithUnknown (TShape T)) (VObj fs) = WithUnknown_literal_open T fs.
Proof.
  unfold accepts, WithUnknown_literal_open. f_equal.
  - unfold WithUnknown, AnyObject.
    rewrite has_type_TInter, has_type_TShape_VObj, has_type_TObject.
    rewrite index_ok_unknown. simpl. now rewrite andb_true_r.
  - rewrite no_excess_VObj. simpl excess_target. simpl is_empty_object.
    rewrite andb_false_r. simpl.
    apply forallb_eq_in. intros f _. rewrite known_prop_WithUnknown.
    destruct (lookup_member (fst f) T); [reflexivity|].
    apply no_excess_TUnknown.
Qed.

(** C7, as stated, fails: a further member need not have a string name.
    [{ foo: "bar", [s]: 1 }], with [s] a unique symbol, is accepted by
    [WithUnknown<{ foo: string }>]: the excess-property check lets a
    symbol-named member through the string index signature of
    [AnyObject]. *)
Lemma WithUnknown_symbol_named_member :
  accepts (WithUnknown (TShape [req "foo" TString]))
          (VObj [(KStr "foo", VStr "bar"); (KSym "s", VNum 1)]) = true
  /\ WithUnknown_literal_spec [req "foo" TString]
        [(KStr "foo", VStr "bar"); (KSym "s", VNum 1)] = false.
Proof. split; reflexivity. Qed.

(** C7, amended.  [WithUnknown<T>] accepts exactly the object literals that
    hold the declared members of [T] as declared, plus any number of further
    members, named by a string or by a symbol, whatever their value; these
    are the literals accepted by [T]'s members together with a string index
    signature of type [unknown].  For [T = { foo: string }],
    [{ foo: "bar", baz: 123 }] is accepted and a literal without [foo] is
    rejected. *)
Theorem WithUnknown_open_shape :
  (forall (T : shape) (fs : list (key * value)),
      accepts (WithUnknown (TShape T)) (VObj fs) = WithUnknown_literal_open T fs)
  /\ (forall (T : shape) (v : value),
         accepts (WithUnknown (TShape T)) v = accepts (WithUnknown_spec T) v)
  /\ accepts (WithUnknown (TShape [req "foo" TString]))
             (VObj [(KStr "foo", VStr "bar"); (KStr "baz", VNum 123)]) = true
  /\ (forall fs,
         lookup_field (KStr "foo") fs = None ->
         accepts (WithUnknown (TShape [req "foo" TString])) (VObj fs) = false).
Proof.
  split; [|split; [|split]].
  - exact WithUnknown_literal.
  - exact WithUnknown_resolves.
  - reflexivity.
  - intros fs Hmiss. rewrite WithUnknown_literal.
    unfold WithUnknown_literal_open. simpl. unfold member_ok. simpl.
    now rewrite Hmiss.
Qed.

Lemma WithUnknown_open_shape_witness :
  lookup_field (KStr "foo") [(KStr "baz", VNum 123)] = None
  /\ accepts (WithUnknown (TShape [req "foo" TString]))
             (VObj [(KStr "baz", VNum 123)]) = false.
Proof.
  split; [reflexivity|].
  apply (proj2 (proj2 (proj2 WithUnknown_open_shape))). reflexivity.
Defined.

(** ** Specification of [ObjectValues] *)

Lemma flat_map_singleton_in (A B : Type) (f : A -> list B) (g : A -> B)
      (l : list A) :
  (forall x, In x l -> f x = [g x]) -> flat_map f l = map g l.
Proof.
  induction l as [|x l IH]; simpl; intros H; [reflexivity|].
  rewrite (H x), IH; auto.
Qed.

(** Reading every name of [keyof T] visits every member of [T] once. *)
Lemma indexed_access_keyof (T : shape) :
  unique_names T = true ->
  indexed_access T (keyof T)
  = union_of (map (fun m => if m_optional m
                            then mk_union (m_type m) TUndefined
                            else m_type m) T).
Proof.
  intros HT. unfold indexed_access, keyof.
  rewrite literal_keys_key_union. f_equal.
  unfold names. rewrite flat_map_concat_map, map_map, <- flat_map_concat_map.
  apply flat_map_singleton_in. intros m Hm.
  now rewrite lookup_member_unique.
Qed.

Lemma existsb_map_comp (A B : Type) (f : B -> bool) (g : A -> B) (l : list A) :
  existsb f (map g l) = existsb (fun x => f (g x)) l.
Proof.
  induction l as [|x l IH]; simpl; [reflexivity|]. now rewrite IH.
Qed.

(** C8.  For an object-shaped constant type [T] (every member declared
    once, none optional), [ObjectValues<T>] is the union of the types of the
    members of [T]: a value conforms to it exactly when it conforms to the
    type of some member.  For [{ INFO: "info", WARN: "warn" }] the union
    accepts ["info"] and rejects ["debug"]. *)
Theorem ObjectValues_union_of_members :
  (forall (T : shape),
      unique_names T = true ->
      all_required T = true ->
      ObjectValues T = union_of (map m_type T)
      /\ forall v, has_type (ObjectValues T) v
                   = existsb (fun m => has_type (m_type m) v) T)
  /\ accepts (ObjectValues LogLevel) (VStr "info") = true
  /\ accepts (ObjectValues LogLevel) (VStr "debug") = false.
Proof.
  split; [|split; reflexivity].
  intros T HT Hreq.
  assert (E : ObjectValues T = union_of (map m_type T)).
  { unfold ObjectValues. rewrite indexed_access_keyof by assumption.
    f_equal. apply map_ext_in. intros m Hm.
    unfold all_required in Hreq. rewrite forallb_forall in Hreq.
    specialize (Hreq m Hm). now destruct (m_optional m). }
  split; [exact E|].
  intros v. now rewrite E, has_type_union_of, existsb_map_comp.
Qed.

Lemma ObjectValues_union_of_members_witness :
  unique_names LogLevel = true
  /\ all_required LogLevel = true
  /\ ObjectValues LogLevel = union_of (map m_type LogLevel).
Proof.
  split; [reflexivity|]. split; [reflexivity|].
  apply (proj1 ObjectValues_union_of_members LogLevel); reflexivity.
Defined.

(** ** Assignability: identity, [never], [unknown] and unions *)

Lemma assignable_eq (s t : ty) : ty_eqb s t = true -> assignable s t = true.
Proof.
  intros H. destruct s; destruct t; simpl in *;
    try discriminate H; try reflexivity; rewrite H; reflexivity.
Qed.

Arguments ty_eqb : simpl never.

Lemma assignable_refl (t : ty) : assignable t t = true.
Proof. apply assignable_eq, ty_eqb_refl. Qed.

Lemma assignable_never_l (t : ty) : assignable TNever t = true.
Proof. destruct t; reflexivity. Qed.

Lemma assignable_TUnion_l (a b t : ty) :
  assignable (TUnion a b) t
  = ty_eqb (TUnion a b) t || (assignable a t && assignable b t).
Proof. destruct t; reflexivity. Qed.

Lemma assignable_TInter_l (a b t : ty) :
  assignable (TInter a b) t
  = ty_eqb (TInter a b) t
    || match t with
       | TUnknown | TAny => true
       | TInter x y => assignable (TInter a b) x && assignable (TInter a b) y
       | TUnion x y => assignable (TInter a b) x || assignable (TInter a b) y
       | _ => assignable a t || assignable b t
       end.
Proof. destruct t; reflexivity. Qed.

Lemma assignable_to_TUnion (s a b : ty) :
  single s = true ->
  assignable s (TUnion a b)
  = ty_eqb s (TUnion a b) || (assignable s a || assignable s b).
Proof. destruct s; try discriminate; reflexivity. Qed.

Lemma ty_eqb_TUnion_l (a b t : ty) :
  ty_eqb (TUnion a b) t
  = match t with
    | TUnion a' b' => ty_eqb a a' && ty_eqb b b'
    | _ => false
    end.
Proof. destruct t; reflexivity. Qed.

Lemma assignable_TUnion_r (s : ty) :
  forall a b,
    assignable s a = true \/ assignable s b = true ->
    assignable s (TUnion a b) = true.
Proof.
  induction s as [ | | | | | | | s | n | b0 | id | ms idx IHms IHidx
                 | ro e IHe | ro es IHes | s1 s2 IH1 IH2 | s1 s2 IH1 IH2 | ]
    using ty_nested_ind; intros a b H;
    try (rewrite assignable_to_TUnion by reflexivity;
         destruct H as [H|H]; rewrite H; now rewrite ?orb_true_r).
  - apply assignable_never_l.
  - rewrite assignable_TUnion_l. apply orb_true_iff. right.
    assert (Hsplit : forall t, assignable (TUnion s1 s2) t = true ->
                               assignable s1 t = true /\ assignable s2 t = true).
    { intros t Ht. rewrite assignable_TUnion_l in Ht.
      apply orb_true_iff in Ht. destruct Ht as [Ht|Ht].
      - rewrite ty_eqb_TUnion_l in Ht. destruct t; try discriminate.
        apply andb_true_iff in Ht. destruct Ht as [E1 E2]. split.
        + apply IH1. left. now apply assignable_eq.
        + apply IH2. right. now apply assignable_eq.
      - now apply andb_true_iff in Ht. }
    apply andb_true_iff.
    destruct H as [H|H]; destruct (Hsplit _ H) as [H1 H2]; split;
      (apply IH1 || apply IH2); auto.
Qed.

(** A source that is assignable to [never] is assignable to every type. *)
Lemma assignable_to_never (s : ty) :
  assignable s TNever = true -> forall t, assignable s t = true.
Proof.
  induction s as [ | | | | | | | s | n | b0 | id | ms idx IHms IHidx
                 | ro e IHe | ro es IHes | s1 s2 IH1 IH2 | s1 s2 IH1 IH2 | ]
    using ty_nested_ind; intros H; try (vm_compute in H; discriminate H).
  - apply assignable_never_l.
  - rewrite assignable_TUnion_l in H. simpl in H.
    apply andb_true_iff in H. destruct H as [H1 H2]. intros t.
    rewrite assignable_TUnion_l, (IH1 H1), (IH2 H2). apply orb_true_r.
  - rewrite assignable_TInter_l in H. simpl in H.
    assert (Hone : forall t, assignable s1 t || assignable s2 t = true).
    { intros t. apply orb_true_iff in H. apply orb_true_iff.
      destruct H as [H|H]; [left; now apply IH1 | right; now apply IH2]. }
    intros t.
    induction t as [ | | | | | | | s | n | b0 | id | ms idx _ _
                   | ro e _ | ro es _ | x y IHx IHy | x y IHx IHy | ]
      using ty_nested_ind;
      rewrite assignable_TInter_l;
      try (rewrite Hone; apply orb_true_r);
      try apply orb_true_r.
    + rewrite IHx. apply orb_true_r.
    + rewrite IHx, IHy. apply orb_true_r.
Qed.

Lemma mk_union_cases (a b : ty) :
  (a = TNever /\ mk_union a b = b)
  \/ (b = TNever /\ mk_union a b = a)
  \/ mk_union a b = TUnion a b.
Proof. destruct a; destruct b; auto. Qed.

Lemma mk_union_never_r (a : ty) : mk_union a TNever = a.
Proof. now destruct a. Qed.

Lemma assignable_mk_union (s a b : ty) :
  assignable s a = true \/ assignable s b = true ->
  assignable s (mk_union a b) = true.
Proof.
  intros H.
  destruct (mk_union_cases a b) as [[Ea E]|[[Eb E]|E]]; rewrite E.
  - subst a. destruct H as [H|H]; [now apply assignable_to_never|assumption].
  - subst b. destruct H as [H|H]; [assumption|now apply assignable_to_never].
  - now apply assignable_TUnion_r.
Qed.

(** Every member of a union is assignable to the union. *)
Lemma assignable_union_of (es : list ty) (e : ty) :
  In e es -> assignable e (union_of es) = true.
Proof.
  induction es as [|x es IH]; simpl; [contradiction|].
  intros [E|Hin]; apply assignable_mk_union.
  - subst. left. apply assignable_refl.
  - right. now apply IH.
Qed.

(** ** Specification of [Brand] and [Serialized] *)

(** C6.  A plain string is not accepted where [Serialized<T>] is required,
    as a literal or as an expression of type [string]; an expression of
    type [Serialized<T>] is accepted where a [string] is required. *)
Theorem Serialized_is_branded_string :
  forall (T : ty),
    (forall s, accepts (Serialized T) (VStr s) = false)
    /\ assignable TString (Serialized T) = false
    /\ (forall s, assignable (TStrLit s) (Serialized T) = false)
    /\ assignable (Serialized T) TString = true.
Proof.
  intros T. repeat split; reflexivity.
Qed.

(** ** Specification of [Unionize] *)

Lemma assignable_TArray_TArray (ro ro' : bool) (e e' : ty) :
  assignable (TArray ro e) (TArray ro' e')
  = ty_eqb (TArray ro e) (TArray ro' e') || ((ro' || negb ro) && assignable e e').
Proof. reflexivity. Qed.

Lemma assignable_TTuple_TArray (ro ro' : bool) (es : list ty) (e' : ty) :
  assignable (TTuple ro es) (TArray ro' e')
  = (ro' || negb ro) && forallb (fun e => assignable e e') es.
Proof. reflexivity. Qed.

(** An array, mutable or not, matches [readonly (infer U)[]] with [U] its
    element type. *)
Lemma Unionize_TArray (ro : bool) (E : ty) : Unionize (TArray ro E) = E.
Proof.
  unfold Unionize, distribute. cbn [constituents map infer_element].
  rewrite assignable_TArray_TArray, assignable_refl.
  cbn [orb andb]. rewrite orb_true_r.
  cbn [union_of fold_right]. apply mk_union_never_r.
Qed.

(** A tuple matches with [U] the union of its element types. *)
Lemma Unionize_TTuple (ro : bool) (es : list ty) :
  Unionize (TTuple ro es) = union_of es.
Proof.
  unfold Unionize, distribute. cbn [constituents map infer_element].
  rewrite assignable_TTuple_TArray. cbn [orb].
  assert (E : forallb (fun e => assignable e (union_of es)) es = true).
  { apply forallb_forall. intros e He. now apply assignable_union_of. }
  rewrite E. cbn [andb]. unfold union_of at 1.
  cbn [fold_right]. apply mk_union_never_r.
Qed.

(** C3, as stated, fails: [Unionize<string[]>] is [string], not [never]. *)
Lemma Unionize_mutable_array_not_never :
  Unionize (TArray false TString) = TString
  /\ Unionize (TArray false TString) <> TNever.
Proof. split; [reflexivity|discriminate]. Qed.

(** C3, amended.  For a plain mutable array type [E[]], [Unionize] resolves
    to the element type [E]. *)
Theorem Unionize_mutable_array :
  forall (E : ty), Unionize (TArray false E) = E.
Proof. intros E. apply Unionize_TArray. Qed.

(** C9.  For a readonly tuple, [Unionize] is the union of the element
    types: a value conforms to it exactly when it conforms to one of them.
    For [["foo", "bar", "baz"] as const] the union accepts ["bar"] and
    rejects ["qux"]. *)
Theorem Unionize_literal_tuple :
  (forall (es : list ty),
      Unionize (TTuple true es) = union_of es
      /\ forall v, has_type (Unionize (TTuple true es)) v
                   = existsb (fun e => has_type e v) es)
  /\ accepts (Unionize things) (VStr "bar") = true
  /\ accepts (Unionize things) (VStr "qux") = false.
Proof.
  split; [|split; reflexivity].
  intros es. split; [apply Unionize_TTuple|].
  intros v. now rewrite Unionize_TTuple, has_type_union_of.
Qed.









(* ================================================================= *)
(** * Further properties of the aliases *)

(** ** Relaxing the members of a closed shape *)

(** Two member-wise rewritings of a shape that keep names and types: when
    the second asks no more of a literal than the first, it accepts every
    literal the first accepts. *)
Lemma accepts_map_relax (f g : member -> member) (T : shape)
      (fs : list (key * value)) :
  (forall m, m_name (f m) = m_name m) -> (forall m, m_type (f m) = m_type m) ->
  (forall m, m_name (g m) = m_name m) -> (forall m, m_type (g m) = m_type m) ->
  (forall m, In m T -> member_ok (VObj fs) (f m) = true ->
             member_ok (VObj fs) (g m) = true) ->
  accepts (TShape (map f T)) (VObj fs) = true ->
  accepts (TShape (map g T)) (VObj fs) = true.
Proof.
  intros Hfn Hft Hgn Hgt Hrel H.
  apply accepts_split in H. destruct H as [Hh Hx]. apply accepts_split. split.
  - rewrite has_type_TShape_VObj in *. rewrite forallb_forall in *.
    intros m' Hm'. apply in_map_iff in Hm'. destruct Hm' as [m [E Hm]].
    subst m'. apply Hrel; [assumption|]. apply Hh. now apply in_map.
  - rewrite <- Hx. apply no_excess_VObj_ext.
    + reflexivity.
    + rewrite !is_empty_object_TShape. now destruct T.
    + intros k. rewrite !known_prop_TShape.
      rewrite (lookup_member_map g k T Hgn), (lookup_member_map f k T Hfn).
      destruct (lookup_member k T) as [m|]; simpl; [|exact I].
      intros v. now rewrite Hft, Hgt.
Qed.

Lemma member_ok_keep_selected (K : list key) (v : value) (m : member) :
  member_ok v m = true -> member_ok v (keep_selected K m) = true.
Proof.
  unfold keep_selected. destruct (mem_key (m_name m) K); [auto|].
  apply member_ok_make_optional.
Qed.

Lemma member_ok_relax_selected (K : list key) (v : value) (m : member) :
  member_ok v m = true -> member_ok v (relax_selected K m) = true.
Proof.
  unfold relax_selected. destruct (mem_key (m_name m) K); [|auto].
  apply member_ok_make_optional.
Qed.

Lemma subset_keys_mem (K K' : list key) (k : key) :
  subset_keys K K' = true -> mem_key k K = true -> mem_key k K' = true.
Proof.
  unfold subset_keys. rewrite forallb_forall. intros H Hk.
  apply H. now apply mem_key_In.
Qed.

(** X6.  Neither [SomeRequired] nor [WithOptional] ever refuses an object
    literal that [T] itself accepts, whatever names are selected. *)
Theorem SomeRequired_WithOptional_relax :
  forall (T : shape) (K : list key) (fs : list (key * value)),
    unique_names T = true ->
    accepts (TShape T) (VObj fs) = true ->
    accepts (SomeRequired T (key_union K)) (VObj fs) = true
    /\ accepts (WithOptional T (key_union K)) (VObj fs) = true.
Proof.
  intros T K fs HT H. rewrite <- (map_id T) in H.
  rewrite SomeRequired_accepts, WithOptional_accepts by assumption. split.
  - apply (accepts_map_relax (fun m => m) (keep_selected K)); auto.
    + apply keep_selected_name.
    + apply keep_selected_type.
    + intros m _. apply member_ok_keep_selected.
  - apply (accepts_map_relax (fun m => m) (relax_selected K)); auto.
    + apply relax_selected_name.
    + apply relax_selected_type.
    + intros m _. apply member_ok_relax_selected.
Qed.

Lemma SomeRequired_WithOptional_relax_witness :
  unique_names (abc TString TNumber TBoolean) = true
  /\ accepts (TShape (abc TString TNumber TBoolean))
       (VObj [(KStr "a", VStr "x"); (KStr "b", VNum 1); (KStr "c", VBool true)])
     = true
  /\ accepts (SomeRequired (abc TString TNumber TBoolean) (key_union [KStr "b"]))
       (VObj [(KStr "a", VStr "x"); (KStr "b", VNum 1); (KStr "c", VBool true)])
     = true.
Proof.
  split; [reflexivity|]. split; [reflexivity|].
  apply (SomeRequired_WithOptional_relax (abc TString TNumber TBoolean)
           [KStr "b"]); reflexivity.
Defined.

(** X9.  Selecting more names makes [SomeRequired] accept less and
    [WithOptional] accept more: for [K] included in [K'], a literal accepted
    by [SomeRequired<T, K'>] is accepted by [SomeRequired<T, K>], and one
    accepted by [WithOptional<T, K>] is accepted by [WithOptional<T, K'>]. *)
Theorem selection_monotone :
  forall (T : shape) (K K' : list key) (fs : list (key * value)),
    unique_names T = true ->
    subset_keys K K' = true ->
    (accepts (SomeRequired T (key_union K')) (VObj fs) = true ->
     accepts (SomeRequired T (key_union K)) (VObj fs) = true)
    /\ (accepts (WithOptional T (key_union K)) (VObj fs) = true ->
        accepts (WithOptional T (key_union K')) (VObj fs) = true).
Proof.
  intros T K K' fs HT HK.
  rewrite !SomeRequired_accepts, !WithOptional_accepts by assumption. split.
  - apply (accepts_map_relax (keep_selected K') (keep_selected K));
      auto using keep_selected_name, keep_selected_type.
    intros m _. unfold keep_selected.
    destruct (mem_key (m_name m) K) eqn:E.
    + now rewrite (subset_keys_mem K K' _ HK E).
    + destruct (mem_key (m_name m) K'); [|auto].
      apply member_ok_make_optional.
  - apply (accepts_map_relax (relax_selected K) (relax_selected K'));
      auto using relax_selected_name, relax_selected_type.
    intros m _. unfold relax_selected.
    destruct (mem_key (m_name m) K) eqn:E.
    + now rewrite (subset_keys_mem K K' _ HK E).
    + destruct (mem_key (m_name m) K'); [|auto].
      apply member_ok_make_optional.
Qed.

Lemma selection_monotone_witness :
  unique_names (abc TString TNumber TBoolean) = true
  /\ subset_keys [KStr "a"] [KStr "a"; KStr "b"] = true
  /\ (accepts (SomeRequired (abc TString TNumber TBoolean)
                            (key_union [KStr "a"; KStr "b"]))
              (VObj [(KStr "a", VStr "x"); (KStr "b", VNum 1)]) = true ->
      accepts (SomeRequired (abc TString TNumber TBoolean)
                            (key_union [KStr "a"]))
              (VObj [(KStr "a", VStr "x"); (KStr "b", VNum 1)]) = true).
Proof.
  split; [reflexivity|]. split; [reflexivity|].
  apply (selection_monotone (abc TString TNumber TBoolean)
           [KStr "a"] [KStr "a"; KStr "b"]); reflexivity.
Defined.

(** ** Edge selections and the link between the two selective aliases *)

Lemma SomeRequired_spec_nil (T : shape) : SomeRequired_spec T [] = Partial T.
Proof. reflexivity. Qed.

Lemma WithOptional_spec_nil (T : shape) : WithOptional_spec T [] = T.
Proof. unfold WithOptional_spec. apply map_id. Qed.

Lemma WithOptional_spec_all (T : shape) :
  WithOptional_spec T (names T) = Partial T.
Proof.
  apply map_ext_in. intros m Hm. unfold relax_selected.
  assert (E : mem_key (m_name m) (names T) = true).
  { apply mem_key_In. unfold names. now apply in_map. }
  now rewrite E.
Qed.

(** X3.  The two ends of a selection.  With no name selected
    ([K = never]) [SomeRequired<T, K>] is [Partial<T>] and
    [WithOptional<T, K>] is [T]; with every name selected ([K = keyof T])
    [WithOptional<T, K>] is [Partial<T>]. *)
Theorem selection_ends :
  forall (T : shape) (fs : list (key * value)),
    unique_names T = true ->
    accepts (SomeRequired T TNever) (VObj fs)
    = accepts (TShape (Partial T)) (VObj fs)
    /\ accepts (WithOptional T TNever) (VObj fs) = accepts (TShape T) (VObj fs)
    /\ accepts (WithOptional T (keyof T)) (VObj fs)
       = accepts (TShape (Partial T)) (VObj fs).
Proof.
  intros T fs HT. split; [|split].
  - change TNever with (key_union []).
    now rewrite SomeRequired_accepts, SomeRequired_spec_nil.
  - change TNever with (key_union []).
    now rewrite WithOptional_accepts, WithOptional_spec_nil.
  - unfold keyof. now rewrite WithOptional_accepts, WithOptional_spec_all.
Qed.

Lemma selection_ends_witness :
  unique_names (abc TString TNumber TBoolean) = true
  /\ accepts (SomeRequired (abc TString TNumber TBoolean) TNever) (VObj [])
     = accepts (TShape (Partial (abc TString TNumber TBoolean))) (VObj []).
Proof.
  split; [reflexivity|].
  apply (selection_ends (abc TString TNumber TBoolean) []). reflexivity.
Defined.

(** X4.  [WithOptional] is [SomeRequired] on the names that are left:
    [WithOptional<T, K>] accepts the object literals that
    [SomeRequired<T, Exclude<keyof T, K>>] accepts. *)
Theorem WithOptional_is_SomeRequired_of_rest :
  forall (T : shape) (K : list key) (fs : list (key * value)),
    unique_names T = true ->
    accepts (WithOptional T (key_union K)) (VObj fs)
    = accepts (SomeRequired T (Exclude (keyof T) (key_union K))) (VObj fs).
Proof.
  intros T K fs HT. unfold keyof.
  rewrite Exclude_key_union, WithOptional_accepts, SomeRequired_accepts
    by assumption.
  f_equal. f_equal. apply map_ext_in. intros m Hm.
  unfold relax_selected, keep_selected.
  rewrite mem_key_filter.
  assert (E : mem_key (m_name m) (names T) = true).
  { apply mem_key_In. unfold names. now apply in_map. }
  rewrite E. simpl. now destruct (mem_key (m_name m) K).
Qed.

Lemma WithOptional_is_SomeRequired_of_rest_witness :
  unique_names [req "a" TString; opt "b" TNumber] = true
  /\ accepts (WithOptional [req "a" TString; opt "b" TNumber]
                           (key_union [KStr "a"])) (VObj [])
     = accepts (SomeRequired [req "a" TString; opt "b" TNumber]
                  (Exclude (keyof [req "a" TString; opt "b" TNumber])
                           (key_union [KStr "a"]))) (VObj []).
Proof.
  split; [reflexivity|].
  apply (WithOptional_is_SomeRequired_of_rest
           [req "a" TString; opt "b" TNumber] [KStr "a"]).
  reflexivity.
Defined.

(** ** [WithUnknown] only adds *)

(** X5.  [WithUnknown<T>] gives up none of [T]'s requirements and refuses
    nothing [T] accepts: a literal it accepts conforms to [T], and a literal
    with string-named members that [T] accepts is accepted. *)
Theorem WithUnknown_only_adds :
  forall (T : shape) (fs : list (key * value)),
    (accepts (WithUnknown (TShape T)) (VObj fs) = true ->
     has_type (TShape T) (VObj fs) = true)
    /\ (string_keyed fs = true ->
        accepts (TShape T) (VObj fs) = true ->
        accepts (WithUnknown (TShape T)) (VObj fs) = true).
Proof.
  intros T fs. rewrite WithUnknown_literal. unfold WithUnknown_literal_open.
  rewrite has_type_TShape_VObj. split.
  - intros H. apply andb_true_iff in H. now destruct H.
  - intros Hk H. apply accepts_split in H. destruct H as [Hh Hx].
    rewrite has_type_TShape_VObj in Hh. rewrite Hh. simpl.
    apply forallb_forall. intros f Hf.
    destruct (lookup_member (fst f) T) as [m|] eqn:E; [|reflexivity].
    destruct T as [|m0 T']; [discriminate E|].
    rewrite no_excess_VObj, is_empty_object_TShape in Hx.
    cbn [excess_target TShape negb orb] in Hx.
    rewrite forallb_forall in Hx. specialize (Hx f Hf).
    rewrite known_prop_TShape, E in Hx. exact Hx.
Qed.

Lemma WithUnknown_only_adds_witness :
  string_keyed [(KStr "foo", VStr "bar")] = true
  /\ accepts (TShape [req "foo" TString]) (VObj [(KStr "foo", VStr "bar")]) = true
  /\ accepts (WithUnknown (TShape [req "foo" TString]))
             (VObj [(KStr "foo", VStr "bar")]) = true.
Proof.
  split; [reflexivity|]. split; [reflexivity|].
  apply (proj2 (WithUnknown_only_adds [req "foo" TString]
                  [(KStr "foo", VStr "bar")])); reflexivity.
Defined.

(** ** [ObjectValues] with optional members *)

Lemma existsb_eq (A : Type) (f g : A -> bool) (l : list A) :
  (forall x, f x = g x) -> existsb f l = existsb g l.
Proof.
  intros H. induction l as [|x l IH]; simpl; [reflexivity|].
  now rewrite H, IH.
Qed.

Lemma has_type_TUndefined (v : value) : has_type TUndefined v = is_undefined v.
Proof. now destruct v. Qed.

(** X2.  [ObjectValues<T>] reads an optional member as its type or
    [undefined]: a value conforms to [ObjectValues<T>] exactly when it
    conforms to the type of some member of [T], or is [undefined] and [T] has
    an optional member. *)
Theorem ObjectValues_optional_members :
  forall (T : shape),
    unique_names T = true ->
    forall v, has_type (ObjectValues T) v
              = existsb (fun m => has_type (m_type m) v
                                  || (m_optional m && is_undefined v)) T.
Proof.
  intros T HT v. unfold ObjectValues.
  rewrite indexed_access_keyof by assumption.
  rewrite has_type_union_of, existsb_map_comp.
  apply existsb_eq. intros m.
  destruct (m_optional m); simpl.
  - now rewrite has_type_mk_union, has_type_TUndefined.
  - now rewrite orb_false_r.
Qed.

Lemma ObjectValues_optional_members_witness :
  unique_names [req "a" TString; opt "b" TNumber] = true
  /\ forall v,
      has_type (ObjectValues [req "a" TString; opt "b" TNumber]) v
      = existsb (fun m => has_type (m_type m) v
                          || (m_optional m && is_undefined v))
                [req "a" TString; opt "b" TNumber].
Proof.
  split; [reflexivity|].
  apply (ObjectValues_optional_members [req "a" TString; opt "b" TNumber]).
  reflexivity.
Defined.

(** ** Brands are compared by their tag *)

Lemma ty_eqb_Brand (A B : ty) : ty_eqb (Brand A) (Brand B) = ty_eqb A B.
Proof.
  transitivity (true && true && ty_eqb A B && true && true);
    [reflexivity|now rewrite !andb_true_r].
Qed.

Lemma assignable_Brand (A B : ty) :
  assignable (Brand A) (Brand B) = assignable A B.
Proof.
  unfold Brand.
  change (assignable (TObject [Member __brand false A] None)
                     (TObject [Member __brand false B] None))
    with (ty_eqb (Brand A) (Brand B) || (true && (assignable A B && true && true))).
  rewrite ty_eqb_Brand, !andb_true_r.
  destruct (ty_eqb A B) eqn:E; [|reflexivity].
  simpl. symmetry. now apply assignable_eq.
Qed.

(** X7.  A brand is worth its tag: [Brand<A>] is assignable to [Brand<B>],
    and [Serialized<A>] to [Serialized<B>], exactly when [A] is assignable to
    [B]; so a serialized [number] is not accepted as a serialized
    [string]. *)
Theorem Serialized_compared_by_tag :
  (forall (A B : ty),
      assignable (Brand A) (Brand B) = assignable A B
      /\ assignable (Serialized A) (Serialized B) = assignable A B)
  /\ assignable (Serialized TNumber) (Serialized TString) = false.
Proof.
  split; [|reflexivity].
  intros A B. split; [apply assignable_Brand|].
  unfold Serialized.
  change (assignable (TInter TString (Brand A)) (TInter TString (Brand B)))
    with (ty_eqb (TInter TString (Brand A)) (TInter TString (Brand B))
          || (true && (false || assignable (Brand A) (Brand B)))).
  rewrite assignable_Brand. simpl.
  change (ty_eqb (TInter TString (Brand A)) (TInter TString (Brand B)))
    with (ty_eqb (Brand A) (Brand B)).
  rewrite ty_eqb_Brand.
  destruct (ty_eqb A B) eqn:E; [|reflexivity].
  simpl. symmetry. now apply assignable_eq.
Qed.

(** ** [Unionize] on unions, on values and on the [readonly] modifier *)


Lemma has_type_TTuple_cons (ro : bool) (e : ty) (r : list ty)
      (x : value) (xs : list value) :
  has_type (TTuple ro (e :: r)) (VArr (x :: xs))
  = has_type e x && has_type (TTuple ro r) (VArr xs).
Proof. reflexivity. Qed.

Lemma tuple_items_in_union (ro : bool) (es : list ty) :
  forall xs,
    has_type (TTuple ro es) (VArr xs) = true ->
    forallb (has_type (union_of es)) xs = true.
Proof.
  induction es as [|e r IH]; intros xs H.
  - destruct xs; [reflexivity|discriminate H].
  - destruct xs as [|x xs]; [reflexivity|].
    rewrite has_type_TTuple_cons in H.
    apply andb_true_iff in H. destruct H as [He Hr].
    simpl. rewrite !has_type_mk_union, He. simpl.
    specialize (IH xs Hr). rewrite forallb_forall in IH.
    apply forallb_forall. intros y Hy.
    now rewrite has_type_mk_union, (IH y Hy), orb_true_r.
Qed.

(** X10.  [Unionize] of the type of a sequence types every element of the
    sequence: each item of an array value that conforms to [E[]] conforms to
    [Unionize<E[]>], and each item of a value that conforms to a tuple type
    conforms to [Unionize] of that tuple type. *)
Theorem Unionize_types_every_item :
  forall (ro : bool) (E : ty) (es : list ty) (xs : list value),
    (has_type (TArray ro E) (VArr xs) = true ->
     forallb (has_type (Unionize (TArray ro E))) xs = true)
    /\ (has_type (TTuple ro es) (VArr xs) = true ->
        forallb (has_type (Unionize (TTuple ro es))) xs = true).
Proof.
  intros ro E es xs. split.
  - rewrite Unionize_TArray. auto.
  - rewrite Unionize_TTuple. apply tuple_items_in_union.
Qed.

Lemma Unionize_types_every_item_witness :
  has_type things (VArr [VStr "foo"; VStr "bar"; VStr "baz"]) = true
  /\ forallb (has_type (Unionize things))
             [VStr "foo"; VStr "bar"; VStr "baz"] = true.
Proof.
  split; [reflexivity|].
  apply (proj2 (Unionize_types_every_item true TNever
                  [TStrLit "foo"; TStrLit "bar"; TStrLit "baz"]
                  [VStr "foo"; VStr "bar"; VStr "baz"])).
  reflexivity.
Defined.

(** X11.  The [readonly] modifier plays no part in [Unionize]: a mutable
    tuple gives the union of its element types like a readonly one, and a
    readonly array gives its element type like a mutable one.  What
    [as const] changes is the element types, which become literal. *)
Theorem Unionize_ignores_readonly :
  forall (E : ty) (es : list ty),
    Unionize (TArray true E) = Unionize (TArray false E)
    /\ Unionize (TTuple false es) = Unionize (TTuple true es)
    /\ Unionize (TTuple false es) = union_of es.
Proof.
  intros E es. now rewrite !Unionize_TArray, !Unionize_TTuple.
Qed.

(** ** [AnyObject], and [WithUnknown] after a selective alias *)

(** X12.  [AnyObject] takes every object literal, whatever the names, string
    or symbol, and the values of its members; nested literals are not
    checked for excess members. *)
Theorem AnyObject_any_literal :
  forall (fs : list (key * value)), accepts AnyObject (VObj fs) = true.
Proof.
  intros fs. unfold accepts, AnyObject.
  rewrite has_type_TObject, index_ok_unknown, no_excess_VObj. simpl.
  apply forallb_forall. intros f _.
  unfold known_prop. simpl.
  destruct (is_string_key (fst f)); apply no_excess_TUnknown.
Qed.

(** Opening two targets without index signature that conform alike and know
    the same members gives targets that accept the same object literals. *)
Lemma WithUnknown_ext (X Y : ty) (fs : list (key * value)) :
  (forall k, index_prop X k = None) -> (forall k, index_prop Y k = None) ->
  has_type X (VObj fs) = has_type Y (VObj fs) ->
  same_known X Y ->
  accepts (WithUnknown X) (VObj fs) = accepts (WithUnknown Y) (VObj fs).
Proof.
  intros HX HY Hh Hk. unfold accepts, WithUnknown.
  rewrite !has_type_TInter, Hh. f_equal.
  apply no_excess_VObj_ext.
  - simpl. now rewrite !orb_true_r.
  - simpl. now rewrite !andb_false_r.
  - intros k. specialize (Hk k). unfold known_prop in *. simpl.
    rewrite HX, HY in *.
    destruct (declared_prop X k), (declared_prop Y k); simpl;
      try contradiction; [exact Hk|].
    destruct (is_string_key k); simpl; auto.
Qed.

(** X13.  The aliases compose: opening a selective alias with [WithUnknown]
    accepts the object literals accepted by the open version of the shape
    the selective alias stands for. *)
Theorem WithUnknown_after_selection :
  forall (T : shape) (K : list key) (fs : list (key * value)),
    unique_names T = true ->
    accepts (WithUnknown (SomeRequired T (key_union K))) (VObj fs)
    = accepts (WithUnknown (TShape (SomeRequired_spec T K))) (VObj fs)
    /\ accepts (WithUnknown (WithOptional T (key_union K))) (VObj fs)
       = accepts (WithUnknown (TShape (WithOptional_spec T K))) (VObj fs).
Proof.
  intros T K fs HT. split; apply WithUnknown_ext; try reflexivity.
  - now apply SomeRequired_has_type.
  - apply SomeRequired_same_known.
  - now apply WithOptional_has_type.
  - apply WithOptional_same_known.
Qed.

Lemma WithUnknown_after_selection_witness :
  unique_names (abc TString TNumber TBoolean) = true
  /\ accepts (WithUnknown (SomeRequired (abc TString TNumber TBoolean)
                                        (key_union [KStr "a"])))
             (VObj [(KStr "a", VStr "x"); (KStr "z", VNull)])
     = accepts (WithUnknown (TShape (SomeRequired_spec
                                       (abc TString TNumber TBoolean)
                                       [KStr "a"])))
               (VObj [(KStr "a", VStr "x"); (KStr "z", VNull)]).
Proof.
  split; [reflexivity|].
  apply (WithUnknown_after_selection (abc TString TNumber TBoolean)
           [KStr "a"]).
  reflexivity.
Defined.
